(** * oil-notifier: the gauge-reading script [check_oil_level.py]

    A shallow embedding of the parts of [check_oil_level.py] that decide
    what the script reports: the percentage extractor [parse_percentage],
    the glare filter [reduce_glare], the image pipeline [process_image],
    the CSV log [log_reading] and the tail of [main].

    Text is a list of 8-bit code points ([ascii]); Python integers are [Z];
    NumPy's float32 and Python's float64 values are rationals rounded to
    24 and 53 significant bits. What the script reads from outside (the
    camera, the model, the clock, the mail server) is a record of answers;
    what it changes (the log file, the mails sent) is a state passed
    along. Console output and the image files written on the way are
    left out. *)

From Stdlib Require Import ZArith QArith Qround Qpower Lqa Lia.
From Stdlib Require Import Strings.Byte Ascii String List Bool.
Import ListNotations.

Local Open Scope Z_scope.

(* ------------------------------------------------------------------ *)
(** ** Python values the script passes around *)

Inductive exn := TypeError | ValueError | OSError.

Inductive outcome (A : Type) :=
| Return (a : A)
| Raise (e : exn).
Arguments Return {A} a.
Arguments Raise {A} e.

Definition bind {A B} (o : outcome A) (f : A -> outcome B) : outcome B :=
  match o with
  | Return a => f a
  | Raise e => Raise e
  end.

Notation "x <- c ;; k" := (bind c (fun x => k))
  (at level 61, c at next level, right associativity).

Definition text := list ascii.

(* ------------------------------------------------------------------ *)
(** ** The fragment of [re] used by the two patterns *)

Module Re.

(** [\d] and [\s] on code points below 256, as [re] classifies them for
    [str] patterns: the decimal digits are [0-9]; white space is
    [\t\n\v\f\r], [\x1c-\x1f], the blank, [\x85] and [\xa0]. *)
Inductive cclass := Digit | Space.

Definition code (c : ascii) : Z := Z.of_N (N_of_ascii c).

Definition is_digit (c : ascii) : bool :=
  (48 <=? code c) && (code c <=? 57).

Definition is_space (c : ascii) : bool :=
  ((9 <=? code c) && (code c <=? 13))
  || ((28 <=? code c) && (code c <=? 32))
  || (code c =? 133) || (code c =? 160).

Definition in_class (cl : cclass) (c : ascii) : bool :=
  match cl with
  | Digit => is_digit c
  | Space => is_space c
  end.

(** Patterns: a literal character, a greedy run [cl{lo,}] of a character
    class ([\s*] is [Rep 0 Space], [\d+] is [Rep 1 Digit]), concatenation,
    a greedy optional [(?:r)?], and a numbered capturing group. *)
Inductive regex :=
| Eps
| Lit (c : ascii)
| Rep (lo : nat) (cl : cclass)
| Cat (r1 r2 : regex)
| Opt (r : regex)
| Group (n : nat) (r : regex).

Fixpoint lits (s : text) : regex :=
  match s with
  | [] => Eps
  | c :: s' => Cat (Lit c) (lits s')
  end.

(** Captured groups, most recent binding first. *)
Definition caps := list (nat * text).

Fixpoint lookup (n : nat) (cs : caps) : option text :=
  match cs with
  | [] => None
  | (i, t) :: cs' => if Nat.eqb i n then Some t else lookup n cs'
  end.

(** The text between two positions of one string, given as suffixes. *)
Definition consumed (s s' : text) : text :=
  firstn (length s - length s') s.

(** Greedy repetition with backtracking: take one more character of the
    class when that leads to a match, otherwise stop here if at least
    [lo] were taken. *)
Fixpoint greedy {A} (cl : cclass) (lo : nat) (s : text)
    (k : text -> option A) : option A :=
  let stop := match lo with O => k s | S _ => None end in
  match s with
  | c :: s' =>
      if in_class cl c then
        match greedy cl (pred lo) s' k with
        | Some a => Some a
        | None => stop
        end
      else stop
  | [] => stop
  end.

(** Backtracking matcher in continuation-passing style: [k] is the rest of
    the pattern and receives the unread suffix and the groups so far. *)
Fixpoint run {A} (r : regex) (s : text) (cs : caps)
    (k : text -> caps -> option A) : option A :=
  match r with
  | Eps => k s cs
  | Lit c =>
      match s with
      | c' :: s' => if Ascii.eqb c c' then k s' cs else None
      | [] => None
      end
  | Rep lo cl => greedy cl lo s (fun s' => k s' cs)
  | Cat r1 r2 => run r1 s cs (fun s' cs' => run r2 s' cs' k)
  | Opt r1 =>
      match run r1 s cs k with
      | Some a => Some a
      | None => k s cs
      end
  | Group n r1 => run r1 s cs (fun s' cs' => k s' ((n, consumed s s') :: cs'))
  end.

(** A match object: where the match starts and ends, and its groups. *)
Record match_obj := MatchObj {
  m_start : nat;
  m_end : nat;
  m_caps : caps
}.

Definition group (n : nat) (m : match_obj) : option text :=
  lookup n (m_caps m).

(** [re.match] at one position: the pattern must match a prefix of [s];
    the result is the number of characters taken and the groups. *)
Definition match_here (r : regex) (s : text) : option (nat * caps) :=
  run r s [] (fun s' cs => Some ((length s - length s')%nat, cs)).

(** [re.search]: the first start position, left to right, where the
    pattern matches; the empty suffix is tried last. *)
Fixpoint search_from (r : regex) (pos : nat) (s : text) : option match_obj :=
  match match_here r s with
  | Some (n, cs) => Some (MatchObj pos (pos + n) cs)
  | None =>
      match s with
      | [] => None
      | _ :: s' => search_from r (S pos) s'
      end
  end.

Definition search (r : regex) (s : text) : option match_obj :=
  search_from r 0 s.

End Re.

(* ------------------------------------------------------------------ *)
(** ** [parse_percentage] *)

Definition str (s : string) : text := list_ascii_of_string s.

(** [r"Percentage:\s*(\d+)(?:-(\d+))?%"] *)
Definition pattern_labeled : Re.regex :=
  Re.Cat (Re.lits (str "Percentage:"))
    (Re.Cat (Re.Rep 0 Re.Space)
      (Re.Cat (Re.Group 1 (Re.Rep 1 Re.Digit))
        (Re.Cat (Re.Opt (Re.Cat (Re.Lit "-") (Re.Group 2 (Re.Rep 1 Re.Digit))))
          (Re.Lit "%")))).

(** [r"(\d+)(?:-(\d+))%"] *)
Definition pattern_bare : Re.regex :=
  Re.Cat (Re.Group 1 (Re.Rep 1 Re.Digit))
    (Re.Cat (Re.Cat (Re.Lit "-") (Re.Group 2 (Re.Rep 1 Re.Digit)))
      (Re.Lit "%")).

Definition patterns : list Re.regex := [pattern_labeled; pattern_bare].

(** The value of a run of decimal digits. *)
Definition digit_value (c : ascii) : Z := Re.code c - 48.

Definition decimal (ds : text) : Z :=
  fold_left (fun acc c => 10 * acc + digit_value c) ds 0.

(** [int(x)] for the arguments a group can be: [None] raises [TypeError];
    a non-empty run of decimal digits is its value, of any size (the
    interpreter's optional cap on the number of digits is not part of
    the model); any other text raises [ValueError] here (Python also
    accepts a sign, blanks and underscores, none of which [\d+]
    captures). *)
Definition int (x : option text) : outcome Z :=
  match x with
  | None => Raise TypeError
  | Some ds =>
      match ds with
      | [] => Raise ValueError
      | _ :: _ => if forallb Re.is_digit ds then Return (decimal ds)
                  else Raise ValueError
      end
  end.

(** Truth value of [match.group(n)]: [None] and the empty string are false. *)
Definition truthy (x : option text) : bool :=
  match x with
  | Some (_ :: _) => true
  | _ => false
  end.

(** The body of [for pattern in patterns: ...] followed by [return None]. *)
Fixpoint first_pattern (ps : list Re.regex) (result_text : text)
    : outcome (option Z) :=
  match ps with
  | [] => Return None
  | pattern :: ps' =>
      match Re.search pattern result_text with
      | Some m =>
          if truthy (Re.group 2 m) then
            n <- int (Re.group 2 m) ;; Return (Some n)
          else
            n <- int (Re.group 1 m) ;; Return (Some n)
      | None => first_pattern ps' result_text
      end
  end.

Definition parse_percentage (result_text : string) : outcome (option Z) :=
  first_pattern patterns (str result_text).

(* ------------------------------------------------------------------ *)
(** ** Binary floating point *)

Module Float.

Local Open Scope Q_scope.

Definition pow2 (k : Z) : Q := (2 # 1) ^ k.

(** The exponent of a positive rational: [pow2 (ilog2 x) <= x < pow2 (ilog2 x + 1)]. *)
Definition ilog2 (x : Q) : Z :=
  let k := (Z.log2 (Qnum x) - Z.log2 (Zpos (Qden x)))%Z in
  if Qle_bool (pow2 k) x then k else (k - 1)%Z.

(** The nearest integer, ties to even. *)
Definition rne (q : Q) : Z :=
  let f := Qfloor q in
  match Qcompare (q - inject_Z f) (1 # 2) with
  | Lt => f
  | Gt => (f + 1)%Z
  | Eq => if Z.even f then f else (f + 1)%Z
  end.

(** Round to nearest, ties to even, with [p] significant bits. The exponent
    is not bounded: overflow and subnormal numbers are outside this model
    (no value the filter computes comes near either). *)
Definition round (p : Z) (x : Q) : Q :=
  match Qnum x with
  | Z0 => 0
  | Zpos _ =>
      let u := pow2 (ilog2 x - p + 1) in
      Qred (inject_Z (rne (x / u)) * u)
  | Zneg _ =>
      let u := pow2 (ilog2 (- x) - p + 1) in
      Qred (- (inject_Z (rne (- x / u)) * u))
  end.

Definition f32 : Q -> Q := round 24.
Definition f64 : Q -> Q := round 53.

Definition gtb (x y : Q) : bool := negb (Qle_bool x y).

(** The weight of the last of the [p] bits of [x]. *)
Definition ulp (p : Z) (x : Q) : Q := pow2 (ilog2 x - p + 1).

End Float.

(* ------------------------------------------------------------------ *)
(** ** [reduce_glare] *)

(** An RGB pixel; an RGB image is a list of rows, top row first.
    [reduce_glare] gets the image after the conversion to RGB, so its
    array has shape (h, w, 3). *)
Definition rgb (A : Type) : Type := (A * A * A)%type.

Definition map_rgb {A B} (f : A -> B) (p : rgb A) : rgb B :=
  let '(r, g, b) := p in (f r, f g, f b).

(** [a[..., c]] for [c] in [range(3)]. *)
Definition chan {A} (c : nat) (p : rgb A) : A :=
  let '(r, g, b) := p in
  match c with
  | O => r
  | S O => g
  | _ => b
  end.

Definition set_chan {A} (c : nat) (v : A) (p : rgb A) : rgb A :=
  let '(r, g, b) := p in
  match c with
  | O => (v, g, b)
  | S O => (r, v, b)
  | _ => (r, g, v)
  end.

Definition rgb_image := list (list (rgb Z)).
Definition float_array := list (list (rgb Q)).

(** [np.array(img, dtype=np.float32)]: 8-bit values are float32 values. *)
Definition np_array_float32 (img : rgb_image) : float_array :=
  map (map (map_rgb (fun v => Float.f32 (inject_Z v)))) img.

(** [np.mean(a, axis=2)] of a float32 array: the sum and the quotient are
    float32 operations. *)
Definition mean3 (p : rgb Q) : Q :=
  let '(r, g, b) := p in
  Float.f32 (Float.f32 (Float.f32 (r + g) + b) / 3).

(** [a[:, :, c] = np.where(mask, a[:, :, c] * k, a[:, :, c])] *)
Definition where_scaled (mask : list (list bool)) (k : Q) (c : nat)
    (a : float_array) : float_array :=
  map (fun '(mrow, row) =>
         map (fun '(m, px) =>
                set_chan c
                  (if m : bool then Float.f32 (chan c px * Float.f32 k)
                   else chan c px) px)
             (combine mrow row))
      (combine mask a).

(** [a[y, :, :] *= k]; the loop only names rows that exist. *)
Fixpoint scale_row (y : nat) (k : Q) (a : float_array) : float_array :=
  match a, y with
  | [], _ => []
  | row :: a', O =>
      map (map_rgb (fun v => Float.f32 (v * Float.f32 k))) row :: a'
  | row :: a', S y' => row :: scale_row y' k a'
  end.

(** [int(height * 0.4)] *)
Definition top_portion (height : nat) : nat :=
  Z.to_nat (Qfloor (Float.f64 (Float.f64 (inject_Z (Z.of_nat height))
                               * Float.f64 (4 # 10)))).

(** [0.85 + (0.15 * y / top_portion)] *)
Definition darken_factor (y top : nat) : Q :=
  Float.f64 (Float.f64 (85 # 100)
    + Float.f64 (Float.f64 (Float.f64 (15 # 100)
                            * Float.f64 (inject_Z (Z.of_nat y)))
                 / Float.f64 (inject_Z (Z.of_nat top)))).

(** [np.clip(a, 0, 255).astype(np.uint8)] on one value. *)
Definition clip (v : Q) : Q :=
  if Qle_bool v 0 then 0 else if Qle_bool 255 v then 255 else v.

Definition to_uint8 (v : Q) : Z := Qfloor (clip v).

Definition glare_reduction : Q := Float.f64 (7 # 10).

Definition reduce_glare (img : rgb_image) : rgb_image :=
  let img_array := np_array_float32 img in
  let bright_mask := map (map (fun px => Float.gtb (mean3 px) 220)) img_array in
  let img_array :=
    fold_left (fun a c => where_scaled bright_mask glare_reduction c a)
      (seq 0 3) img_array in
  let height := length img_array in
  let img_array :=
    fold_left (fun a y => scale_row y (darken_factor y (top_portion height)) a)
      (seq 0 (top_portion height)) img_array in
  map (map (map_rgb to_uint8)) img_array.

(* ------------------------------------------------------------------ *)
(** ** [process_image] *)

Definition bytes := list byte.

(** The operations of the imaging library that [process_image] calls and
    that are not modelled pixel by pixel: decoding, mode conversion,
    rotation, the three enhancers and the JPEG encoder. *)
Record Imaging := {
  pil_image : Type;
  (** [Image.open(BytesIO(data))], pixel data loaded *)
  image_open : bytes -> outcome pil_image;
  (** [img.mode] *)
  mode : pil_image -> string;
  (** the pixels of an image whose mode is ["RGB"] *)
  rgb_pixels : pil_image -> rgb_image;
  (** [Image.new("RGB", img.size, (255, 255, 255))] with [img] pasted
      through its fourth band as mask *)
  paste_on_white : pil_image -> rgb_image;
  (** [img.convert("RGB")] *)
  convert_rgb : pil_image -> rgb_image;
  (** [img.rotate(degrees, expand=True)] *)
  rotate_expand : Z -> rgb_image -> rgb_image;
  (** [ImageEnhance.Brightness(img).enhance(factor)] and its siblings *)
  brightness : Q -> rgb_image -> rgb_image;
  contrast : Q -> rgb_image -> rgb_image;
  sharpness : Q -> rgb_image -> rgb_image;
  (** [img.save(output, format="JPEG", quality=q)] *)
  save_jpeg : Z -> rgb_image -> outcome bytes
}.

(** [img.transpose(Image.FLIP_LEFT_RIGHT)] *)
Definition flip_left_right (img : rgb_image) : rgb_image :=
  map (@rev (rgb Z)) img.

Definition box : Type := (Z * Z * Z * Z)%type.

Definition height (img : rgb_image) : Z := Z.of_nat (length img).

Definition width (img : rgb_image) : Z :=
  match img with
  | [] => 0
  | row :: _ => Z.of_nat (length row)
  end.

Definition zrange (a b : Z) : list Z :=
  map (fun i => a + Z.of_nat i) (seq 0 (Z.to_nat (b - a))).

(** The pixel at column [x] of row [y]; black outside the image. *)
Definition pixel_at (img : rgb_image) (x y : Z) : rgb Z :=
  if (0 <=? x) && (0 <=? y) then
    nth (Z.to_nat x) (nth (Z.to_nat y) img []) (0, 0, 0)
  else (0, 0, 0).

(** [img.crop((left, upper, right, lower))]: the library rejects a box
    whose right edge is left of its left edge (or lower above upper) and
    otherwise returns an image of the size of the box, copying the part of
    the box that lies inside the image and leaving the rest black. *)
Definition crop (b : box) (img : rgb_image) : outcome rgb_image :=
  let '(x0, y0, x1, y1) := b in
  if x1 <? x0 then Raise ValueError
  else if y1 <? y0 then Raise ValueError
  else Return (map (fun y => map (fun x => pixel_at img x y) (zrange x0 x1))
                   (zrange y0 y1)).

Definition process_image (L : Imaging) (image_data : bytes)
    (flip_horizontal : bool) (rotate_degrees : Z) (crop_box : option box)
    (enhance : bool) (reduce_glare_enabled : bool) : outcome bytes :=
  img <- image_open L image_data ;;
  let img :=
    if String.eqb (mode L img) "RGBA" then paste_on_white L img
    else if negb (String.eqb (mode L img) "RGB") then convert_rgb L img
    else rgb_pixels L img in
  let img := if flip_horizontal then flip_left_right img else img in
  let img :=
    if negb (rotate_degrees =? 0) then rotate_expand L rotate_degrees img
    else img in
  img <- match crop_box with
         | Some b => crop b img
         | None => Return img
         end ;;
  let img := if reduce_glare_enabled then reduce_glare img else img in
  let img :=
    if enhance then
      let img := brightness L (13 # 10) img in
      let img := contrast L (14 # 10) img in
      sharpness L (15 # 10) img
    else img in
  save_jpeg L 95 img.

(* ------------------------------------------------------------------ *)
(** ** The log, the mail and [main] *)

Definition ALERT_THRESHOLD : Z := 25.

(** A CSV field before the writer turns it into text. *)
Inductive cell :=
| CStr (s : string)
| CInt (n : Z).

Definition csv_row := list cell.

Record email := Email {
  is_warning : bool;
  reported : Z;
  attachment : string
}.

(** What one run can change: the log file ([None] while it does not
    exist) as the rows written to it, and the messages accepted by the
    SMTP server. *)
Record world := World {
  log_file : option (list csv_row);
  outbox : list email
}.

(** What one run reads from outside: the camera's answer, whether the
    inference key is configured, the model's answer to the processed
    image ([None] when the call raises), whether the SMTP server takes
    the message, the directory of the images and the clock readings
    already formatted for the two file names and for the log. *)
Record env := Env {
  camera : option bytes;
  api_key : bool;
  claude : bytes -> option string;
  smtp_ok : bool;
  images_dir : string;
  stamp_snapshot : string;
  stamp_processed : string;
  stamp_log : string
}.

(** [raw_result.replace("\n", " ")] *)
Fixpoint replace_newlines (s : string) : string :=
  match s with
  | EmptyString => EmptyString
  | String c s' =>
      String (if Ascii.eqb c "010" then " "%char else c) (replace_newlines s')
  end.

Definition header : csv_row :=
  [CStr "Timestamp"; CStr "Percentage"; CStr "Snapshot"; CStr "Raw Result"].

Definition log_reading (e : env) (percentage : Z) (raw_result : string)
    (snapshot_path : string) (w : world) : world :=
  let timestamp := stamp_log e in
  let row := [CStr timestamp; CInt percentage; CStr snapshot_path;
              CStr (replace_newlines raw_result)] in
  let rows :=
    match log_file w with
    | None => [header; row]
    | Some old => old ++ [row]
    end in
  World (Some rows) (outbox w).

(** [send_alert_email]: the message is built and submitted; a failure of
    the submission is caught and reported as [False]. *)
Definition send_alert_email (e : env) (percentage : Z)
    (snapshot_path : string) (is_warning : bool) (w : world) : bool * world :=
  if smtp_ok e then
    (true, World (log_file w)
                 (outbox w ++ [Email is_warning percentage snapshot_path]))
  else (false, w).

(** [analyze_oil_gauge]: the image is processed outside the [try]; the
    call to the model and [parse_percentage] are inside it. The result
    [None] stands for the triple [(None, None, None)]. *)
Definition analyze_oil_gauge (L : Imaging) (e : env) (image_data : bytes)
    : outcome (option (string * option Z * string)) :=
  if negb (api_key e) then Return None
  else
    let crop_box := (700, 650, 1300, 1600) in
    processed_image_data <-
      process_image L image_data false 55 (Some crop_box) false true ;;
    let processed_filename :=
      (images_dir e ++ "/processed_" ++ stamp_processed e ++ ".jpg")%string in
    match claude e processed_image_data with
    | Some result =>
        match parse_percentage result with
        | Return percentage =>
            Return (Some (result, percentage, processed_filename))
        | Raise _ => Return None
        end
    | None => Return None
    end.

Definition is_empty {A} (l : list A) : bool :=
  match l with
  | [] => true
  | _ :: _ => false
  end.

Definition main (L : Imaging) (e : env) (w : world) : outcome unit * world :=
  match camera e with
  | None => (Return tt, w)
  | Some image_data =>
      if is_empty image_data then (Return tt, w)
      else
        let snapshot_filename :=
          (images_dir e ++ "/oil_snapshot_" ++ stamp_snapshot e ++ ".jpg")%string in
        match analyze_oil_gauge L e image_data with
        | Raise x => (Raise x, w)
        | Return None => (Return tt, w)
        | Return (Some (result, percentage, processed_path)) =>
            if String.eqb result "" then (Return tt, w)
            else
              match percentage with
              | Some percentage =>
                  let w := log_reading e percentage result snapshot_filename w in
                  let is_warning := percentage <=? ALERT_THRESHOLD in
                  let '(_, w) :=
                    send_alert_email e percentage processed_path is_warning w in
                  (Return tt, w)
              | None => (Return tt, w)
              end
        end
  end.

(* ------------------------------------------------------------------ *)
(** ** What the two patterns accept, without backtracking *)

Fixpoint take_while (p : ascii -> bool) (s : text) : text :=
  match s with
  | c :: s' => if p c then c :: take_while p s' else []
  | [] => []
  end.

Fixpoint drop_while (p : ascii -> bool) (s : text) : text :=
  match s with
  | c :: s' => if p c then drop_while p s' else s
  | [] => []
  end.

Fixpoint strip_prefix (p s : text) : option text :=
  match p with
  | [] => Some s
  | c :: p' =>
      match s with
      | c' :: s' => if Ascii.eqb c c' then strip_prefix p' s' else None
      | [] => None
      end
  end.

(** After [lead] characters: a run of digits, then either [-], a second
    run of digits and [%], or (when [optional_range]) [%] at once. *)
Definition scan_numbers (optional_range : bool) (lead : nat) (s : text)
    : option (nat * Re.caps) :=
  let d1 := take_while Re.is_digit s in
  match d1, drop_while Re.is_digit s with
  | _ :: _, c :: r =>
      if Ascii.eqb "-" c then
        let d2 := take_while Re.is_digit r in
        match d2, drop_while Re.is_digit r with
        | _ :: _, c2 :: _ =>
            if Ascii.eqb "%" c2 then
              Some ((lead + length d1 + 1 + length d2 + 1)%nat,
                    [(2%nat, d2); (1%nat, d1)])
            else None
        | _, _ => None
        end
      else if optional_range && Ascii.eqb "%" c then
        Some ((lead + length d1 + 1)%nat, [(1%nat, d1)])
      else None
  | _, _ => None
  end.

Definition scan_bare (s : text) : option (nat * Re.caps) :=
  scan_numbers false 0 s.

Definition scan_labeled (s : text) : option (nat * Re.caps) :=
  match strip_prefix (str "Percentage:") s with
  | Some r =>
      scan_numbers true (11 + length (take_while Re.is_space r))
        (drop_while Re.is_space r)
  | None => None
  end.

(** The two patterns share their numeric part. *)
Definition dash_part : Re.regex :=
  Re.Cat (Re.Lit "-") (Re.Group 2 (Re.Rep 1 Re.Digit)).

Definition numbers (optional_range : bool) : Re.regex :=
  Re.Cat (Re.Group 1 (Re.Rep 1 Re.Digit))
    (Re.Cat (if optional_range then Re.Opt dash_part else dash_part)
            (Re.Lit "%")).

(** The match object the loop of [parse_percentage] stops at: that of the
    first pattern of the list that matches somewhere in the text. *)
Fixpoint first_match (ps : list Re.regex) (t : text) : option Re.match_obj :=
  match ps with
  | [] => None
  | p :: ps' =>
      match Re.search p t with
      | Some m => Some m
      | None => first_match ps' t
      end
  end.

(** A non-empty run of decimal digits. *)
Definition digits (ds : text) : Prop :=
  ds <> [] /\ forallb Re.is_digit ds = true.

(** The groups of a match of either pattern: one run of digits, or two. *)
Definition good_caps (cs : Re.caps) : Prop :=
  exists d1, digits d1 /\
    (cs = [(1%nat, d1)] \/ exists d2, digits d2 /\ cs = [(2%nat, d2); (1%nat, d1)]).

(* ------------------------------------------------------------------ *)
(** ** The glare filter, pixel by pixel *)

(** [map] with the index of each element, counted from [i]. *)
Fixpoint mapi_from {A B} (f : nat -> A -> B) (i : nat) (l : list A) : list B :=
  match l with
  | [] => []
  | x :: l' => f i x :: mapi_from f (S i) l'
  end.

(** The filter one pixel at a time: what becomes of the pixel [px] of row
    [y] in an image of [h] rows. A pixel whose mean exceeds 220 has each
    channel multiplied by 0.7; then, in the rows above [top_portion h],
    each channel is multiplied by the factor of the row; at the end each
    channel is clipped and truncated. *)
Definition glare_pixel (h y : nat) (px : rgb Z) : rgb Z :=
  let fpx := map_rgb (fun v => Float.f32 (inject_Z v)) px in
  let glare := Float.gtb (mean3 fpx) 220 in
  let band := top_portion h in
  let reduced (v : Q) :=
    if glare then Float.f32 (v * Float.f32 glare_reduction) else v in
  let darkened (v : Q) :=
    if (y <? band)%nat
    then Float.f32 (v * Float.f32 (darken_factor y band)) else v in
  map_rgb (fun v => to_uint8 (darkened (reduced v))) fpx.

Definition reduce_glare_pointwise (img : rgb_image) : rgb_image :=
  mapi_from (fun y row => map (glare_pixel (length img) y) row) 0 img.

Definition scale_pixels (k : Q) (row : list (rgb Q)) : list (rgb Q) :=
  map (map_rgb (fun v => Float.f32 (v * Float.f32 k))) row.

(** The float64 constants of [darken_factor] and the unit round-off. *)
Definition eps53 : Q := Float.pow2 (- 53).
Definition c15 : Q := Float.f64 (15 # 100).
Definition c85 : Q := Float.f64 (85 # 100).

(** An 8-bit RGB image: every channel of every pixel is in [0, 255]. *)
Definition u8 (v : Z) : Prop := 0 <= v <= 255.

Definition valid_pixel (p : rgb Z) : Prop :=
  forall c : nat, u8 (chan c p).

Definition valid_image (img : rgb_image) : Prop :=
  Forall (Forall valid_pixel) img.

(** [q] is a pixel of an 8-bit image and none of its channels is above
    the same channel of [p]. *)
Definition no_brighter (p q : rgb Z) : Prop :=
  forall c : nat, u8 (chan c q) /\ chan c q <= chan c p.

Definition glare_sample : rgb_image :=
  [[(250, 250, 250); (100, 100, 100)];
   [(250, 250, 250); (100, 100, 100)];
   [(250, 250, 250); (100, 100, 100)];
   [(250, 250, 250); (100, 100, 100)];
   [(250, 250, 250); (221, 220, 220)]].

(* ------------------------------------------------------------------ *)
(** ** The transform, step by step *)

(** The steps of the transform as the specification lists them, each one
    a function of the image the previous step produced. *)
Definition step_normalize (L : Imaging) (img : pil_image L) : rgb_image :=
  if String.eqb (mode L img) "RGBA" then paste_on_white L img
  else if String.eqb (mode L img) "RGB" then rgb_pixels L img
  else convert_rgb L img.

Definition step_mirror (flip_horizontal : bool) (img : rgb_image) : rgb_image :=
  if flip_horizontal then flip_left_right img else img.

Definition step_rotate (L : Imaging) (degrees : Z) (img : rgb_image) : rgb_image :=
  if degrees =? 0 then img else rotate_expand L degrees img.

Definition step_crop (region : option box) (img : rgb_image) : outcome rgb_image :=
  match region with
  | Some b => crop b img
  | None => Return img
  end.

Definition step_glare (on : bool) (img : rgb_image) : rgb_image :=
  if on then reduce_glare img else img.

Definition step_enhance (L : Imaging) (on : bool) (img : rgb_image) : rgb_image :=
  if on then sharpness L (15 # 10) (contrast L (14 # 10) (brightness L (13 # 10) img))
  else img.

Definition step_encode (L : Imaging) (img : rgb_image) : outcome bytes :=
  save_jpeg L 95 img.

Definition transform (L : Imaging) (raw : bytes) (flip_horizontal : bool)
    (rotate_degrees : Z) (region : option box) (enhance reduce : bool)
    : outcome bytes :=
  decoded <- image_open L raw ;;
  cropped <- step_crop region
               (step_rotate L rotate_degrees
                  (step_mirror flip_horizontal (step_normalize L decoded))) ;;
  step_encode L (step_enhance L enhance (step_glare reduce cropped)).

(** The pixels [crop] returns for an ordered box. *)
Definition crop_pixels (b : box) (img : rgb_image) : rgb_image :=
  let '(x0, y0, x1, y1) := b in
  map (fun y => map (fun x => pixel_at img x y) (zrange x0 x1)) (zrange y0 y1).

(* ------------------------------------------------------------------ *)
(** ** Running the script *)

(** The file the raw camera frame is saved to at the start of [main]. *)
Definition snapshot_path (e : env) : string :=
  (images_dir e ++ "/oil_snapshot_" ++ stamp_snapshot e ++ ".jpg")%string.

(** An uncompressed encoding: the channels of every pixel, one byte each. *)
Definition to_byte (v : Z) : byte :=
  match Byte.of_N (Z.to_N v) with
  | Some b => b
  | None => x00
  end.

Definition raster (img : rgb_image) : bytes :=
  flat_map (flat_map (fun '(r, g, b) => [to_byte r; to_byte g; to_byte b])) img.

(** A stand-in for the imaging library, for running the pipeline on a
    given RGB image: the decoder returns that image, the operations that
    are not modelled pixel by pixel leave the image alone, and the encoder
    is [raster]. *)
Definition test_library (img : rgb_image) : Imaging := {|
  pil_image := rgb_image;
  image_open := fun _ => Return img;
  mode := fun _ => "RGB"%string;
  rgb_pixels := fun i => i;
  paste_on_white := fun i => i;
  convert_rgb := fun i => i;
  rotate_expand := fun _ i => i;
  brightness := fun _ i => i;
  contrast := fun _ i => i;
  sharpness := fun _ i => i;
  save_jpeg := fun _ i => Return (raster i)
|}.

Definition two_by_two : rgb_image :=
  [[(200, 200, 200); (200, 200, 200)]; [(200, 200, 200); (200, 200, 200)]].

(** A run in which the camera answers, the model answers
    ["Percentage: 18%"] and the mail server accepts the message. *)
Definition run_18 : env := {|
  camera := Some [x00];
  api_key := true;
  claude := fun _ => Some "Percentage: 18%"%string;
  smtp_ok := true;
  images_dir := "images";
  stamp_snapshot := "20250101_120000";
  stamp_processed := "20250101_120003";
  stamp_log := "2025-01-01 12:00:09"
|}.

(* ------------------------------------------------------------------ *)
(** ** More of the script: formatting, the camera, the calibration tools *)




(** The group [parse_percentage] converts: the second when the match has
    one, the first otherwise. *)
Definition chosen_group (cs : Re.caps) : option text :=
  match Re.lookup 2 cs with
  | Some g => Some g
  | None => Re.lookup 1 cs
  end.

(** What [reduce_glare] makes of an 8-bit pixel, in integers: below the
    darkened band, and in the top row of the image. *)
Definition is_glare (p : rgb Z) : bool :=
  let '(r, g, b) := p in 660 <? r + g + b.

Definition scale_floor (num den : Z) (p : rgb Z) : rgb Z :=
  map_rgb (fun v => num * v / den) p.

Definition below_band_pixel (p : rgb Z) : rgb Z :=
  if is_glare p then scale_floor 7 10 p else p.

Definition top_row_pixel (p : rgb Z) : rgb Z :=
  if is_glare p then scale_floor 119 200 p else scale_floor 17 20 p.


(** Several readings written to the log one after the other. *)
Definition log_readings (e : env) (readings : list (Z * string * string))
    (w : world) : world :=
  fold_left (fun w '(percentage, raw_result, snapshot_path) =>
               log_reading e percentage raw_result snapshot_path w)
            readings w.

Definition log_row (e : env) (reading : Z * string * string) : csv_row :=
  let '(percentage, raw_result, snapshot_path) := reading in
  [CStr (stamp_log e); CInt percentage; CStr snapshot_path;
   CStr (replace_newlines raw_result)].

(** *** [get_camera_snapshot] *)

(** The three settings read from the environment ([None] when unset) and
    the one request the function makes. *)
Record unifi := Unifi {
  UNIFI_HOST : option string;
  UNIFI_API_KEY : option string;
  CAMERA_ID : option string
}.

Record request := Request {
  url : string;
  x_api_key : string;
  accept : string
}.

Record response := Response {
  status_code : Z;
  content : bytes
}.

(** Truth value of a setting: unset and empty are false. *)
Definition is_set (v : option string) : bool :=
  match v with
  | Some (String _ _) => true
  | _ => false
  end.

(** A setting inside an f-string. *)
Definition fmt (v : option string) : string :=
  match v with
  | Some s => s
  | None => "None"
  end.

Definition snapshot_request (c : unifi) : request :=
  Request ("https://" ++ fmt (UNIFI_HOST c)
           ++ "/proxy/protect/integration/v1/cameras/" ++ fmt (CAMERA_ID c)
           ++ "/snapshot")%string
          (fmt (UNIFI_API_KEY c)) "*/*".

(** [get_camera_snapshot()]: [http_get] is [requests.get] with its
    answer or the exception it raises; [sent] records the requests made
    so far. *)
Definition get_camera_snapshot (c : unifi)
    (http_get : request -> outcome response) (sent : list request)
    : option bytes * list request :=
  if negb (is_set (UNIFI_HOST c) && is_set (UNIFI_API_KEY c)
           && is_set (CAMERA_ID c))
  then (None, sent)
  else
    let req := snapshot_request c in
    match http_get req with
    | Return response =>
        if negb (status_code response =? 200) then (None, sent ++ [req])
        else (Some (content response), sent ++ [req])
    | Raise _ => (None, sent ++ [req])
    end.

(** [main] with the camera call written out. *)
Definition with_camera (e : env) (frame : option bytes) : env :=
  Env frame (api_key e) (claude e) (smtp_ok e) (images_dir e)
      (stamp_snapshot e) (stamp_processed e) (stamp_log e).

Definition main_from_camera (c : unifi)
    (http_get : request -> outcome response) (L : Imaging) (e : env)
    (w : world) : outcome unit * world :=
  main L (with_camera e (fst (get_camera_snapshot c http_get []))) w.

(** *** [test/simple_crop.py] *)

(** The default box: the centre quarter of the width, full height. *)
Definition default_crop_box (width height : Z) : box :=
  let crop_width := width / 4 in
  let margin := (width - crop_width) / 2 in
  (margin, 0, margin + crop_width, height).

(** The checks of the script before it crops. *)
Definition crop_box_accepted (img : rgb_image) (b : box) : bool :=
  let '(x0, y0, x1, y1) := b in
  negb ((x0 >=? x1) || (y0 >=? y1))
  && negb ((x1 >? width img) || (y1 >? height img)).

(** The body of the script: [None] is [sys.exit(1)], otherwise the image
    saved as the preview. *)
Definition simple_crop (img : rgb_image) (argv_box : option box)
    : outcome (option rgb_image) :=
  let crop_box :=
    match argv_box with
    | Some b => b
    | None => default_crop_box (width img) (height img)
    end in
  if crop_box_accepted img crop_box then
    cropped <- crop crop_box img ;; Return (Some cropped)
  else Return None.

(** Every row has the width of the image. *)
Definition rectangular (img : rgb_image) : Prop :=
  Forall (fun row => Z.of_nat (length row) = width img) img.

(** *** [test/test_consistency.py] and [test/test_saved_image.py] *)






(** *** What [analyze_oil_gauge] and [main] leave behind *)


(** The file the processed image is saved to. *)
Definition processed_path (e : env) : string :=
  (images_dir e ++ "/processed_" ++ stamp_processed e ++ ".jpg")%string.

(** The rows a first write finds in the log: the header when the file is
    created by that write, the old rows otherwise. *)
Definition log_before (w : world) : list csv_row :=
  match log_file w with
  | None => [header]
  | Some old => old
  end.

(** The slice of an image that a box inside it names. *)
Definition slice (b : box) (img : rgb_image) : rgb_image :=
  let '(x0, y0, x1, y1) := b in
  map (fun row => firstn (Z.to_nat (x1 - x0)) (skipn (Z.to_nat x0) row))
      (firstn (Z.to_nat (y1 - y0)) (skipn (Z.to_nat y0) img)).

(** *** Samples *)


Definition garage_camera : unifi :=
  Unifi (Some "192.168.1.1"%string) (Some "secret"%string) (Some "cam1"%string).

Definition answers (status : Z) (body : bytes) (_ : request) : outcome response :=
  Return (Response status body).

(* ================================================================== *)
(** * Properties *)

(* ------------------------------------------------------------------ *)
(** ** The percentage extractor *)

Section Scanning.

Lemma take_drop_while p s : take_while p s ++ drop_while p s = s.
Proof.
  induction s as [|c s IH]; simpl; [reflexivity|].
  destruct (p c); simpl; [now rewrite IH | reflexivity].
Qed.

Lemma take_while_all p s : forallb p (take_while p s) = true.
Proof.
  induction s as [|c s IH]; simpl; [reflexivity|].
  destruct (p c) eqn:E; simpl; [now rewrite E | reflexivity].
Qed.

Lemma length_drop_while p s :
  length s = (length (take_while p s) + length (drop_while p s))%nat.
Proof. rewrite <- (take_drop_while p s) at 1. apply length_app. Qed.

Lemma consumed_app (a b : text) : Re.consumed (a ++ b) b = a.
Proof.
  unfold Re.consumed. rewrite length_app.
  replace (length a + length b - length b)%nat with (length a + 0)%nat by lia.
  rewrite firstn_app_2. simpl. apply app_nil_r.
Qed.

Lemma consumed_drop_while p s :
  Re.consumed s (drop_while p s) = take_while p s.
Proof.
  rewrite <- (take_drop_while p s) at 1. apply consumed_app.
Qed.

(** Backtracking never helps a greedy run whose continuation rejects every
    text that starts inside the class. *)
Lemma greedy_longest {A} cl lo s (k : text -> option A) :
  (forall c s', Re.in_class cl c = true -> k (c :: s') = None) ->
  Re.greedy cl lo s k =
    if (lo <=? length (take_while (Re.in_class cl) s))%nat
    then k (drop_while (Re.in_class cl) s) else None.
Proof.
  intros Hk. revert lo. induction s as [|c s IH]; intros lo; simpl.
  - destruct lo; reflexivity.
  - destruct (Re.in_class cl c) eqn:E; simpl.
    + rewrite IH. destruct lo as [|lo]; simpl.
      * destruct (k (drop_while _ s)); [reflexivity | now apply Hk].
      * destruct (lo <=? _)%nat; [|reflexivity].
        now destruct (k (drop_while _ s)).
    + destruct lo; reflexivity.
Qed.

Lemma run_lits {A} p s cs (k : text -> Re.caps -> option A) :
  Re.run (Re.lits p) s cs k =
    match strip_prefix p s with
    | Some r => k r cs
    | None => None
    end.
Proof.
  revert s. induction p as [|c p IH]; intros s; simpl; [reflexivity|].
  destruct s as [|c' s]; [reflexivity|].
  destruct (Ascii.eqb c c'); [apply IH | reflexivity].
Qed.


Lemma space_not_digit c : Re.is_space c = true -> Re.is_digit c = false.
Proof. unfold Re.is_digit, Re.is_space. lia. Qed.

Lemma digit_not_dash c : Re.is_digit c = true -> Ascii.eqb "-" c = false.
Proof.
  intros H. destruct (Ascii.eqb_spec "-" c) as [<-|]; [discriminate H | reflexivity].
Qed.

Lemma digit_not_percent c : Re.is_digit c = true -> Ascii.eqb "%" c = false.
Proof.
  intros H. destruct (Ascii.eqb_spec "%" c) as [<-|]; [discriminate H | reflexivity].
Qed.

Lemma le1_length {A} (l : list A) :
  (1 <=? length l)%nat = match l with [] => false | _ :: _ => true end.
Proof. destruct l; reflexivity. Qed.

Ltac rejects_digit :=
  let Hd := fresh "Hd" in
  intros ? ? ? Hd; cbn [Re.run]; rewrite (digit_not_percent _ Hd); reflexivity.

Lemma run_dash {A} s cs (k : text -> Re.caps -> option A) :
  (forall c s' cs', Re.is_digit c = true -> k (c :: s') cs' = None) ->
  Re.run dash_part s cs k =
    match s with
    | c :: r =>
        if Ascii.eqb "-" c then
          match take_while Re.is_digit r with
          | _ :: _ => k (drop_while Re.is_digit r) ((2%nat, take_while Re.is_digit r) :: cs)
          | [] => None
          end
        else None
    | [] => None
    end.
Proof.
  intros Hk. unfold dash_part. cbn [Re.run].
  destruct s as [|c r]; [reflexivity|].
  destruct (Ascii.eqb "-" c); [|reflexivity].
  rewrite greedy_longest by (intros; now apply Hk).
  change (Re.in_class Re.Digit) with Re.is_digit.
  rewrite le1_length, consumed_drop_while.
  now destruct (take_while Re.is_digit r).
Qed.

Lemma run_numbers opt (s0 : text) lead s :
  length s0 = (lead + length s)%nat ->
  Re.run (numbers opt) s []
         (fun s' cs => Some ((length s0 - length s')%nat, cs))
  = scan_numbers opt lead s.
Proof.
  intros Hlen. unfold numbers, scan_numbers. cbn [Re.run].
  rewrite greedy_longest.
  2:{ intros c s' Hc. cbn [Re.in_class] in Hc.
      destruct opt; cbn [Re.run].
      - rewrite run_dash by rejects_digit.
        rewrite (digit_not_dash c Hc), (digit_not_percent c Hc). reflexivity.
      - rewrite run_dash by rejects_digit.
        now rewrite (digit_not_dash c Hc). }
  change (Re.in_class Re.Digit) with Re.is_digit.
  rewrite le1_length, consumed_drop_while.
  pose proof (length_drop_while Re.is_digit s) as L1.
  destruct (take_while Re.is_digit s) as [|d ds] eqn:Ed1; [reflexivity|].
  destruct (drop_while Re.is_digit s) as [|c r] eqn:Er.
  { destruct opt; cbn [Re.run]; rewrite run_dash by rejects_digit; reflexivity. }
  pose proof (length_drop_while Re.is_digit r) as L2.
  destruct opt; cbn [Re.run]; rewrite run_dash by rejects_digit.
  - destruct (Ascii.eqb_spec "-" c) as [<-|Hc].
    + destruct (take_while Re.is_digit r) as [|e es] eqn:Ed2; [reflexivity|].
      destruct (drop_while Re.is_digit r) as [|c2 r2] eqn:Er2; [reflexivity|].
      destruct (Ascii.eqb "%" c2); [|reflexivity].
      simpl in L1, L2 |- *. do 2 f_equal. lia.
    + cbn [Re.run andb]. destruct (Ascii.eqb "%" c); [|reflexivity].
      simpl in L1 |- *. do 2 f_equal. lia.
  - destruct (Ascii.eqb_spec "-" c) as [<-|Hc]; [|reflexivity].
    destruct (take_while Re.is_digit r) as [|e es] eqn:Ed2; [reflexivity|].
    destruct (drop_while Re.is_digit r) as [|c2 r2] eqn:Er2; [reflexivity|].
    destruct (Ascii.eqb "%" c2); [|reflexivity].
    simpl in L1, L2 |- *. do 2 f_equal. lia.
Qed.

Lemma match_here_bare s : Re.match_here pattern_bare s = scan_bare s.
Proof.
  unfold Re.match_here, scan_bare.
  change pattern_bare with (numbers false).
  now apply run_numbers.
Qed.

Lemma strip_prefix_app p s r : strip_prefix p s = Some r -> s = p ++ r.
Proof.
  revert s. induction p as [|c p IH]; intros s H; simpl in H.
  - now inversion H.
  - destruct s as [|c' s]; [discriminate|].
    destruct (Ascii.eqb_spec c c') as [<-|]; [|discriminate].
    simpl. f_equal. now apply IH.
Qed.

Lemma match_here_labeled s : Re.match_here pattern_labeled s = scan_labeled s.
Proof.
  unfold Re.match_here, scan_labeled.
  change pattern_labeled with
    (Re.Cat (Re.lits (str "Percentage:")) (Re.Cat (Re.Rep 0 Re.Space) (numbers true))).
  cbn [Re.run]. rewrite run_lits.
  destruct (strip_prefix (str "Percentage:") s) as [r|] eqn:E; [|reflexivity].
  rewrite greedy_longest.
  - change (Re.in_class Re.Space) with Re.is_space. simpl (0 <=? _)%nat. cbv iota.
    apply run_numbers.
    apply strip_prefix_app in E. subst s.
    rewrite length_app, (length_drop_while Re.is_space r). simpl. lia.
  - intros c s' Hc. cbn [Re.in_class] in Hc.
    unfold numbers. cbn [Re.run Re.greedy Re.in_class].
    now rewrite (space_not_digit c Hc).
Qed.

(* ---- what a successful scan looks like ---- *)

Lemma take_while_digits p s c cs :
  take_while p s = c :: cs -> c :: cs <> [] /\ forallb p (c :: cs) = true.
Proof.
  intros E. split; [discriminate|]. rewrite <- E. apply take_while_all.
Qed.

Lemma scan_numbers_some opt lead s n cs :
  scan_numbers opt lead s = Some (n, cs) ->
  good_caps cs /\
  exists body rest, s = body ++ "%"%char :: rest /\ n = (lead + length body + 1)%nat.
Proof.
  unfold scan_numbers. intros H.
  pose proof (take_drop_while Re.is_digit s) as Es.
  destruct (take_while Re.is_digit s) as [|d ds] eqn:Ed1; [discriminate|].
  destruct (drop_while Re.is_digit s) as [|c r] eqn:Er; [discriminate|].
  apply take_while_digits in Ed1.
  destruct (Ascii.eqb_spec "-" c) as [<-|Hc].
  - pose proof (take_drop_while Re.is_digit r) as Er'.
    destruct (take_while Re.is_digit r) as [|e es] eqn:Ed2; [discriminate|].
    destruct (drop_while Re.is_digit r) as [|c2 r2] eqn:Er2; [discriminate|].
    apply take_while_digits in Ed2.
    destruct (Ascii.eqb_spec "%" c2) as [<-|]; [|discriminate].
    inversion H; subst n cs; clear H. split.
    + exists (d :: ds). split; [exact Ed1|]. right. now exists (e :: es).
    + exists ((d :: ds) ++ "-"%char :: e :: es), r2. split.
      * rewrite <- Es, <- Er', <- app_assoc. reflexivity.
      * rewrite length_app. simpl. lia.
  - destruct opt; [|discriminate]. cbn [andb] in H.
    destruct (Ascii.eqb_spec "%" c) as [<-|]; [|discriminate].
    inversion H; subst n cs; clear H. split.
    + exists (d :: ds). split; [exact Ed1|]. now left.
    + exists (d :: ds), r. split; [now rewrite <- Es | simpl; lia].
Qed.

Lemma scan_labeled_some s n cs :
  scan_labeled s = Some (n, cs) ->
  good_caps cs /\
  exists body rest, s = body ++ "%"%char :: rest /\ n = (length body + 1)%nat.
Proof.
  unfold scan_labeled. intros H.
  destruct (strip_prefix (str "Percentage:") s) as [r|] eqn:E; [|discriminate].
  apply strip_prefix_app in E.
  apply scan_numbers_some in H. destruct H as (Hg & body & rest & Hs & Hn).
  split; [exact Hg|].
  exists (str "Percentage:" ++ take_while Re.is_space r ++ body), rest. split.
  - rewrite E, <- (take_drop_while Re.is_space r) at 1. rewrite Hs.
    now rewrite <- !app_assoc.
  - rewrite !length_app. simpl length at 1. lia.
Qed.

Lemma match_here_some p s n cs :
  In p patterns -> Re.match_here p s = Some (n, cs) ->
  good_caps cs /\
  exists body rest, s = body ++ "%"%char :: rest /\ n = (length body + 1)%nat.
Proof.
  intros [<-|[<-|[]]] H.
  - rewrite match_here_labeled in H. now apply scan_labeled_some.
  - rewrite match_here_bare in H. unfold scan_bare in H.
    now apply scan_numbers_some in H.
Qed.

(* ---- nothing after a percent sign is ever read ---- *)






(* ---- re.search ---- *)

Lemma search_from_leftmost r pos s m :
  Re.search_from r pos s = Some m ->
  exists i n,
    m = Re.MatchObj (pos + i) (pos + i + n) (Re.m_caps m) /\
    (i <= length s)%nat /\
    Re.match_here r (skipn i s) = Some (n, Re.m_caps m) /\
    forall j, (j < i)%nat -> Re.match_here r (skipn j s) = None.
Proof.
  revert pos. induction s as [|c s IH]; intros pos H; simpl in H.
  - destruct (Re.match_here r []) as [[n cs]|] eqn:E; [|discriminate].
    inversion H; subst m; clear H. exists 0%nat, n. simpl.
    rewrite Nat.add_0_r. repeat split; auto; intros j Hj; lia.
  - destruct (Re.match_here r (c :: s)) as [[n cs]|] eqn:E.
    + inversion H; subst m; clear H. exists 0%nat, n. simpl.
      rewrite Nat.add_0_r. repeat split; auto; try lia; intros j Hj; lia.
    + apply IH in H. destruct H as (i & n & Hm & Hi & Hat & Hbefore).
      exists (S i), n. simpl. repeat split.
      * rewrite Hm at 1. f_equal; lia.
      * lia.
      * exact Hat.
      * intros [|j] Hj; [exact E | apply Hbefore; lia].
Qed.





(* ---- int() of a captured group ---- *)




Lemma int_digits ds : digits ds -> int (Some ds) = Return (decimal ds).
Proof.
  intros [Hne Hd]. unfold int. destruct ds as [|c ds]; [contradiction|].
  now rewrite Hd.
Qed.

(* ---- the loop over the patterns ---- *)

Lemma search_good_caps p t m :
  In p patterns -> Re.search p t = Some m -> good_caps (Re.m_caps m).
Proof.
  intros Hp H. apply search_from_leftmost in H.
  destruct H as (i & n & _ & _ & Hat & _).
  now apply (match_here_some p _ _ _ Hp) in Hat.
Qed.

Lemma first_pattern_answer ps t :
  incl ps patterns ->
  match first_match ps t with
  | None => first_pattern ps t = Return None
  | Some m =>
      exists d1, digits d1 /\ Re.group 1 m = Some d1 /\
        ((Re.group 2 m = None /\
          first_pattern ps t = Return (Some (decimal d1)))
         \/ (exists d2, digits d2 /\ Re.group 2 m = Some d2 /\
              first_pattern ps t = Return (Some (decimal d2))))
  end.
Proof.
  induction ps as [|p ps IH]; intros Hps; cbn [first_match first_pattern].
  - reflexivity.
  - assert (Hp : In p patterns) by (apply Hps; now left).
    destruct (Re.search p t) as [m|] eqn:E.
    + destruct (search_good_caps p t m Hp E) as (d1 & Hd1 & Hcs).
      exists d1. split; [exact Hd1|]. unfold Re.group.
      destruct Hcs as [-> | (d2 & Hd2 & ->)]; cbn [Re.lookup Nat.eqb].
      * split; [reflexivity|]. left. split; [reflexivity|].
        cbn [truthy]. now rewrite (int_digits d1 Hd1).
      * split; [reflexivity|]. right. exists d2.
        split; [exact Hd2|]. split; [reflexivity|].
        destruct Hd2 as [Hne Hd]. destruct d2 as [|c d2]; [contradiction|].
        cbn [truthy]. now rewrite (int_digits (c :: d2) (conj Hne Hd)).
    + apply IH. intros q Hq. apply Hps. now right.
Qed.

Lemma first_match_none ps t :
  first_match ps t = None <-> forall p, In p ps -> Re.search p t = None.
Proof.
  induction ps as [|p ps IH]; cbn [first_match].
  - split; [intros _ p [] | reflexivity].
  - destruct (Re.search p t) as [m|] eqn:E.
    + split; [discriminate|]. intros H. rewrite <- E. apply H. now left.
    + rewrite IH. split.
      * intros H q [<-|Hq]; [exact E | now apply H].
      * intros H q Hq. apply H. now right.
Qed.

Lemma no_dash_no_bare t :
  ~ In "-"%char t -> Re.search pattern_bare t = None.
Proof.
  intros Hno. destruct (Re.search pattern_bare t) as [m|] eqn:E; [|reflexivity].
  exfalso. apply search_from_leftmost in E.
  destruct E as (i & n & _ & _ & Hat & _).
  rewrite match_here_bare in Hat. unfold scan_bare, scan_numbers in Hat.
  pose proof (take_drop_while Re.is_digit (skipn i t)) as Es.
  destruct (take_while Re.is_digit (skipn i t)) as [|d ds]; [discriminate|].
  destruct (drop_while Re.is_digit (skipn i t)) as [|c r]; [discriminate|].
  destruct (Ascii.eqb_spec "-" c) as [<-|]; [|discriminate].
  apply Hno. rewrite <- (firstn_skipn i t), <- Es.
  apply in_or_app. right. apply in_or_app. right. now left.
Qed.

(* ---- texts built around runs of digits ---- *)







Lemma first_pattern_found p ps t m :
  In p patterns -> Re.search p t = Some m ->
  first_pattern (p :: ps) t =
    Return (Some (match Re.group 2 m with
                  | Some hi => decimal hi
                  | None => match Re.group 1 m with
                            | Some n => decimal n
                            | None => 0
                            end
                  end)).
Proof.
  intros Hp H.
  pose proof (first_pattern_answer [p] t) as A.
  assert (Hincl : incl [p] patterns) by (intros q [<-|[]]; exact Hp).
  specialize (A Hincl). cbn [first_match first_pattern] in *. rewrite H in *.
  destruct A as (d1 & _ & H1 & [[H2 A] | (d2 & _ & H2 & A)]);
    rewrite H1, H2 in *; exact A.
Qed.




End Scanning.

(** The fixtures of the specification that the code agrees with. *)
Example parse_percentage_fixtures :
  parse_percentage "Percentage: 35%" = Return (Some 35)
  /\ parse_percentage "Percentage: 30-35%" = Return (Some 35)
  /\ parse_percentage "no numeric data here" = Return None
  /\ parse_percentage "Level 1-5%, Percentage: 30%" = Return (Some 30).
Proof. repeat split; reflexivity. Qed.



(** C2. The bare pattern as written, [(\d+)(?:-(\d+))%], needs the dash
    and the second run of digits: it matches no text without a dash, and
    ["roughly 42% full"] yields [None]. *)
Theorem parse_percentage_bare_needs_range (s : string) :
  ~ In "-"%char (str s) ->
  Re.search pattern_bare (str s) = None
  /\ parse_percentage "roughly 42% full" = Return None.
Proof.
  intros H. split; [now apply no_dash_no_bare | reflexivity].
Qed.

Lemma parse_percentage_bare_needs_range_witness :
  Re.search pattern_bare (str "roughly 42% full") = None
  /\ parse_percentage "roughly 42% full" = Return None.
Proof.
  apply (parse_percentage_bare_needs_range "roughly 42% full").
  intros H. repeat (destruct H as [H|H]; [discriminate H|]). exact H.
Defined.






(* ------------------------------------------------------------------ *)
(** ** Rounding *)

Section Rounding.

Import Float.
Local Open Scope Q_scope.

(** Known values of the two formats, and a tie each way. *)
Example f32_of_0_7 : f32 (7 # 10) = 11744051 # 16777216.
Proof. reflexivity. Qed.

Example f64_of_0_1 : f64 (1 # 10) = 3602879701896397 # 36028797018963968.
Proof. reflexivity. Qed.

Example f32_of_a_third : f32 (1 # 3) = 11184811 # 33554432.
Proof. reflexivity. Qed.

Example ties_to_even : round 2 (5 # 2) = 2 /\ round 2 (7 # 2) = 4.
Proof. split; reflexivity. Qed.

Lemma two_gt_1 : 1 < 2 # 1.
Proof. reflexivity. Qed.

Lemma two_neq_0 : ~ (2 # 1) == 0.
Proof. discriminate. Qed.

Lemma pow2_pos k : 0 < pow2 k.
Proof. apply Qpower_0_lt. reflexivity. Qed.

Lemma pow2_add a b : pow2 (a + b) == pow2 a * pow2 b.
Proof. apply Qpower_plus, two_neq_0. Qed.

Lemma pow2_le a b : (a <= b)%Z -> pow2 a <= pow2 b.
Proof. intros H. apply Qpower_le_compat_l; [exact H | discriminate]. Qed.

Lemma pow2_lt_inv a b : pow2 a < pow2 b -> (a < b)%Z.
Proof. intros H. apply (Qpower_lt_compat_l_inv _ _ _ H two_gt_1). Qed.

Lemma pow2_Z k : (0 <= k)%Z -> pow2 k == inject_Z (2 ^ k).
Proof. intros H. unfold pow2. now rewrite Zpower_Qpower. Qed.

Lemma pow2_succ a : pow2 (a + 1) == 2 * pow2 a.
Proof. rewrite pow2_add. unfold pow2 at 2. simpl. ring. Qed.

Lemma pow2_pred a : pow2 (a - 1) == (1 # 2) * pow2 a.
Proof.
  setoid_replace (pow2 a) with (pow2 (a - 1 + 1)).
  - rewrite pow2_succ. ring.
  - now replace (a - 1 + 1)%Z with a by ring.
Qed.

(** The two bounds that define [ilog2]. *)
Lemma ilog2_spec x :
  0 < x -> pow2 (ilog2 x) <= x /\ x < pow2 (ilog2 x + 1).
Proof.
  intros Hx. destruct x as [n d]. unfold ilog2. cbn [Qnum Qden].
  assert (Hn : (0 < n)%Z) by (unfold Qlt in Hx; simpl in Hx; lia).
  set (a := Z.log2 n). set (b := Z.log2 (Z.pos d)).
  destruct (Z.log2_spec n Hn) as [Ha1 Ha2]. fold a in Ha1, Ha2.
  destruct (Z.log2_spec (Z.pos d) (Pos2Z.is_pos d)) as [Hb1 Hb2]. fold b in Hb1, Hb2.
  assert (Ha0 : (0 <= a)%Z) by apply Z.log2_nonneg.
  assert (Hb0 : (0 <= b)%Z) by apply Z.log2_nonneg.
  assert (Hxd : (n # d) * inject_Z (Z.pos d) == inject_Z n).
  { rewrite (Qmake_Qdiv n d). field. discriminate. }
  assert (Hd : 0 < inject_Z (Z.pos d)) by reflexivity.
  (* n < 2^(a+1) <= 2^(a-b+1) * d *)
  assert (Hup : (n # d) < pow2 (a - b + 1)).
  { apply (Qmult_lt_r _ _ (inject_Z (Z.pos d)) Hd). rewrite Hxd.
    apply Qlt_le_trans with (pow2 (a + 1)).
    - rewrite pow2_Z by lia. rewrite <- Zlt_Qlt.
      now rewrite <- Z.add_1_r in Ha2.
    - replace (a + 1)%Z with ((a - b + 1) + b)%Z by ring.
      rewrite pow2_add. apply Qmult_le_l; [apply pow2_pos|].
      rewrite pow2_Z by lia. now rewrite <- Zle_Qle. }
  (* 2^(a-b-1) * d < 2^a <= n *)
  assert (Hlo : pow2 (a - b - 1) <= (n # d)).
  { apply (Qmult_le_r _ _ (inject_Z (Z.pos d)) Hd). rewrite Hxd.
    apply Qle_trans with (pow2 a).
    - replace a with ((a - b - 1) + (b + 1))%Z at 2 by ring.
      rewrite pow2_add. apply Qmult_le_l; [apply pow2_pos|].
      rewrite pow2_Z by lia. rewrite <- Zle_Qle.
      rewrite <- Z.add_1_r in Hb2. lia.
    - rewrite pow2_Z by lia. now rewrite <- Zle_Qle. }
  destruct (Qle_bool (pow2 (a - b)) (n # d)) eqn:E.
  - apply Qle_bool_iff in E. split; [exact E | exact Hup].
  - split; [exact Hlo|].
    replace (a - b - 1 + 1)%Z with (a - b)%Z by ring.
    apply Qnot_le_lt. intros H. apply Qle_bool_iff in H. congruence.
Qed.

Lemma ilog2_unique x e :
  pow2 e <= x -> x < pow2 (e + 1) -> ilog2 x = e.
Proof.
  intros H1 H2.
  assert (Hx : 0 < x) by (eapply Qlt_le_trans; [apply (pow2_pos e) | exact H1]).
  destruct (ilog2_spec x Hx) as [G1 G2].
  assert ((ilog2 x < e + 1)%Z)
    by (apply pow2_lt_inv; eapply Qle_lt_trans; eassumption).
  assert ((e < ilog2 x + 1)%Z)
    by (apply pow2_lt_inv; eapply Qle_lt_trans; eassumption).
  lia.
Qed.

Lemma ilog2_mono x y : 0 < x -> x <= y -> (ilog2 x <= ilog2 y)%Z.
Proof.
  intros Hx Hxy.
  assert (Hy : 0 < y) by (eapply Qlt_le_trans; eassumption).
  destruct (ilog2_spec x Hx) as [G1 _]. destruct (ilog2_spec y Hy) as [_ G2].
  assert ((ilog2 x < ilog2 y + 1)%Z); [|lia].
  apply pow2_lt_inv. eapply Qle_lt_trans; [exact G1|].
  eapply Qle_lt_trans; eassumption.
Qed.

(* ---- nearest integer ---- *)

Lemma rne_cases q :
  (rne q = Qfloor q /\ q - inject_Z (Qfloor q) <= 1 # 2)
  \/ (rne q = (Qfloor q + 1)%Z /\ 1 # 2 <= q - inject_Z (Qfloor q)).
Proof.
  unfold rne.
  destruct (Qcompare_spec (q - inject_Z (Qfloor q)) (1 # 2)) as [E|L|G].
  - destruct (Z.even (Qfloor q)); [left | right]; (split; [reflexivity|]);
      rewrite E; apply Qle_refl.
  - left. split; [reflexivity | now apply Qlt_le_weak].
  - right. split; [reflexivity | now apply Qlt_le_weak].
Qed.

Lemma rne_near q : q - (1 # 2) <= inject_Z (rne q) /\ inject_Z (rne q) <= q + (1 # 2).
Proof.
  pose proof (Qfloor_le q) as F1. pose proof (Qlt_floor q) as F2.
  destruct (rne_cases q) as [[-> H]|[-> H]].
  - split; lra.
  - rewrite inject_Z_plus in *. change (inject_Z 1) with 1 in *. split; lra.
Qed.

Lemma rne_mono q1 q2 : q1 <= q2 -> (rne q1 <= rne q2)%Z.
Proof.
  intros H. pose proof (Qfloor_resp_le _ _ H) as F.
  destruct (Z.eq_dec (Qfloor q1) (Qfloor q2)) as [E|N].
  - unfold rne. rewrite <- E.
    destruct (Qcompare_spec (q1 - inject_Z (Qfloor q1)) (1 # 2)) as [E1|L1|G1];
    destruct (Qcompare_spec (q2 - inject_Z (Qfloor q1)) (1 # 2)) as [E2|L2|G2];
      try lia; try (destruct (Z.even (Qfloor q1)); lia); exfalso; lra.
  - destruct (rne_cases q1) as [[-> _]|[-> _]];
    destruct (rne_cases q2) as [[-> _]|[-> _]]; lia.
Qed.

Lemma rne_Z z : rne (inject_Z z) = z.
Proof.
  unfold rne. rewrite Qfloor_Z.
  destruct (Qcompare_spec (inject_Z z - inject_Z z) (1 # 2)) as [E|L|G].
  - exfalso. lra.
  - reflexivity.
  - exfalso. lra.
Qed.

Lemma rne_le_Z q z : q <= inject_Z z -> (rne q <= z)%Z.
Proof. intros H. rewrite <- (rne_Z z). now apply rne_mono. Qed.

Lemma rne_ge_Z q z : inject_Z z <= q -> (z <= rne q)%Z.
Proof. intros H. rewrite <- (rne_Z z). now apply rne_mono. Qed.

(* ---- rounding ---- *)

Lemma round_pos p x :
  0 < x -> round p x == inject_Z (rne (x / ulp p x)) * ulp p x.
Proof.
  intros Hx. unfold round, ulp. destruct x as [[|n|n] d].
  - discriminate Hx.
  - cbn [Qnum]. apply Qred_correct.
  - discriminate Hx.
Qed.

Lemma round_zero p x : x == 0 -> round p x = 0.
Proof.
  intros Hx. unfold round. destruct x as [[|n|n] d]; [reflexivity| |];
    discriminate Hx.
Qed.

Lemma scaled_bounds p x :
  0 < x -> pow2 (p - 1) <= x / ulp p x /\ x / ulp p x < pow2 p.
Proof.
  intros Hx. destruct (ilog2_spec x Hx) as [G1 G2]. unfold ulp.
  set (e := ilog2 x) in *. pose proof (pow2_pos (e - p + 1)) as Hu.
  split.
  - apply Qle_shift_div_l; [exact Hu|]. rewrite <- pow2_add.
    now replace (p - 1 + (e - p + 1))%Z with e by ring.
  - apply Qlt_shift_div_r; [exact Hu|]. rewrite <- pow2_add.
    now replace (p + (e - p + 1))%Z with (e + 1)%Z by ring.
Qed.

Lemma round_nonneg p x : 0 <= x -> 0 <= round p x.
Proof.
  intros Hx. destruct (Qlt_le_dec 0 x) as [Hpos|Hle].
  - rewrite (round_pos p x Hpos). apply Qmult_le_0_compat.
    + change 0 with (inject_Z 0). rewrite <- Zle_Qle. apply rne_ge_Z.
      apply Qle_shift_div_l; [apply pow2_pos|]. change (inject_Z 0) with 0. lra.
    + apply Qlt_le_weak, pow2_pos.
  - rewrite (round_zero p x); [apply Qle_refl | lra].
Qed.

(** The relative error of rounding up is at most [2^-p]. *)
Lemma round_upper p x :
  0 < x -> round p x <= x * (1 + pow2 (- p)).
Proof.
  intros Hx. rewrite (round_pos p x Hx).
  destruct (ilog2_spec x Hx) as [G1 _].
  pose proof (pow2_pos (ilog2 x - p + 1)) as Hu. fold (ulp p x) in Hu.
  destruct (rne_near (x / ulp p x)) as [_ N].
  assert (Hm : inject_Z (rne (x / ulp p x)) * ulp p x
               <= (x / ulp p x + (1 # 2)) * ulp p x).
  { apply Qmult_le_compat_r; [exact N | now apply Qlt_le_weak]. }
  eapply Qle_trans; [exact Hm|].
  setoid_replace ((x / ulp p x + (1 # 2)) * ulp p x)
    with (x + (1 # 2) * ulp p x) by (field; lra).
  assert (Hh : (1 # 2) * ulp p x == pow2 (ilog2 x) * pow2 (- p)).
  { unfold ulp. rewrite <- pow2_add, <- pow2_pred.
    now replace (ilog2 x - p + 1 - 1)%Z with (ilog2 x + - p)%Z by ring. }
  rewrite Hh.
  assert (pow2 (ilog2 x) * pow2 (- p) <= x * pow2 (- p)).
  { apply Qmult_le_compat_r; [exact G1 | apply Qlt_le_weak, pow2_pos]. }
  lra.
Qed.

Lemma rne_compat q1 q2 : q1 == q2 -> rne q1 = rne q2.
Proof.
  intros H. apply Z.le_antisymm; apply rne_mono; rewrite H; apply Qle_refl.
Qed.

Lemma pow2_cancel s : pow2 (- s) * pow2 s == 1.
Proof.
  rewrite <- pow2_add. now replace (- s + s)%Z with 0%Z by ring.
Qed.

(** Facts that need at least one bit of precision. *)
Section Format.

Variable p : Z.
Hypothesis p_pos : (1 <= p)%Z.

(** Within one binade the rounded value stays between the two powers of
    two that bound it. *)
Lemma round_binade x :
  0 < x ->
  pow2 (ilog2 x) <= round p x /\ round p x <= pow2 (ilog2 x + 1).
Proof.
  intros Hx. rewrite (round_pos p x Hx).
  destruct (scaled_bounds p x Hx) as [B1 B2].
  pose proof (pow2_pos (ilog2 x - p + 1)) as Hu. fold (ulp p x) in Hu.
  split.
  - setoid_replace (pow2 (ilog2 x)) with (pow2 (p - 1) * ulp p x).
    + apply Qmult_le_compat_r; [|now apply Qlt_le_weak].
      rewrite pow2_Z by lia. rewrite <- Zle_Qle. apply rne_ge_Z.
      now rewrite <- pow2_Z by lia.
    + unfold ulp. rewrite <- pow2_add.
      now replace (p - 1 + (ilog2 x - p + 1))%Z with (ilog2 x) by ring.
  - setoid_replace (pow2 (ilog2 x + 1)) with (pow2 p * ulp p x).
    + apply Qmult_le_compat_r; [|now apply Qlt_le_weak].
      rewrite pow2_Z by lia. rewrite <- Zle_Qle. apply rne_le_Z.
      rewrite <- pow2_Z by lia. now apply Qlt_le_weak.
    + unfold ulp. rewrite <- pow2_add.
      now replace (p + (ilog2 x - p + 1))%Z with (ilog2 x + 1)%Z by ring.
Qed.

Lemma round_mono x y :
  0 <= x -> x <= y -> round p x <= round p y.
Proof.
  intros Hx Hxy. destruct (Qlt_le_dec 0 x) as [Hpos|Hle].
  2:{ rewrite (round_zero p x) by lra. apply round_nonneg. lra. }
  assert (Hy : 0 < y) by lra.
  pose proof (ilog2_mono x y Hpos Hxy) as He.
  destruct (Z.eq_dec (ilog2 x) (ilog2 y)) as [E|N].
  - rewrite (round_pos p x Hpos), (round_pos p y Hy).
    unfold ulp. rewrite E. pose proof (pow2_pos (ilog2 y - p + 1)) as Hu.
    apply Qmult_le_compat_r; [|now apply Qlt_le_weak].
    rewrite <- Zle_Qle. apply rne_mono.
    apply Qmult_le_compat_r; [exact Hxy|].
    apply Qlt_le_weak, Qinv_lt_0_compat, Hu.
  - destruct (round_binade x Hpos) as [_ U].
    destruct (round_binade y Hy) as [L _].
    eapply Qle_trans; [exact U|]. eapply Qle_trans; [|exact L].
    apply pow2_le. lia.
Qed.

Lemma round_compat x y :
  0 <= x -> x == y -> round p x == round p y.
Proof.
  intros Hx H. apply Qle_antisym; apply round_mono; try assumption;
    rewrite <- ?H; try assumption; rewrite H; apply Qle_refl.
Qed.

(** Integers below [2^p] are values of the format. *)
Lemma round_int n :
  (0 <= n < 2 ^ p)%Z -> round p (inject_Z n) == inject_Z n.
Proof.
  intros [Hn0 Hn]. destruct (Z.eq_dec n 0) as [->|Hne].
  { now rewrite round_zero. }
  assert (Hpos : (0 < n)%Z) by lia.
  assert (Hx : 0 < inject_Z n) by (change 0 with (inject_Z 0); now rewrite <- Zlt_Qlt).
  destruct (Z.log2_spec n Hpos) as [L1 L2].
  assert (He0 : (0 <= Z.log2 n)%Z) by apply Z.log2_nonneg.
  assert (Hep : (Z.log2 n < p)%Z) by (apply Z.log2_lt_pow2; assumption).
  assert (He : ilog2 (inject_Z n) = Z.log2 n).
  { apply ilog2_unique.
    - rewrite pow2_Z by lia. now rewrite <- Zle_Qle.
    - rewrite pow2_Z by lia. rewrite <- Zlt_Qlt. now rewrite Z.add_1_r. }
  rewrite (round_pos p _ Hx). unfold ulp. rewrite He.
  set (s := (Z.log2 n - p + 1)%Z). assert (Hs : (0 <= - s)%Z) by (unfold s; lia).
  pose proof (pow2_pos s) as Hu. pose proof (pow2_cancel s) as Hc.
  assert (Hm : inject_Z n / pow2 s == inject_Z (n * 2 ^ (- s))).
  { rewrite inject_Z_mult, <- pow2_Z by lia.
    apply Qmult_inj_r with (pow2 s); [lra|].
    setoid_replace (inject_Z n / pow2 s * pow2 s) with (inject_Z n) by (field; lra).
    rewrite <- Qmult_assoc, Hc. ring. }
  rewrite (rne_compat _ _ Hm), rne_Z, inject_Z_mult, <- pow2_Z by lia.
  rewrite <- Qmult_assoc, Hc. ring.
Qed.

End Format.

End Rounding.

(* ------------------------------------------------------------------ *)
(** ** The glare filter *)

Section GlareStructure.

Lemma combine_map_same {A B C} (f : A -> B) (g : A -> C) l :
  combine (map f l) (map g l) = map (fun x => (f x, g x)) l.
Proof. induction l as [|x l IH]; simpl; [reflexivity | now rewrite IH]. Qed.

(** One [np.where] assignment, on an array and a mask that are both
    computed pixel by pixel from the same image. *)
Lemma where_scaled_pointwise {A} (m : A -> bool) (g : A -> rgb Q) k c
    (a0 : list (list A)) :
  where_scaled (map (map m) a0) k c (map (map g) a0)
  = map (map (fun p =>
                set_chan c
                  (if m p then Float.f32 (chan c (g p) * Float.f32 k)
                   else chan c (g p)) (g p))) a0.
Proof.
  unfold where_scaled. rewrite combine_map_same, map_map.
  apply map_ext. intros row. now rewrite combine_map_same, map_map.
Qed.

Lemma mapi_from_ext {A B} (f g : nat -> A -> B) i l :
  (forall j x, (i <= j)%nat -> f j x = g j x) ->
  mapi_from f i l = mapi_from g i l.
Proof.
  revert i. induction l as [|x l IH]; intros i H; simpl; [reflexivity|].
  rewrite H by lia. f_equal. apply IH. intros j y Hj. apply H. lia.
Qed.

Lemma mapi_from_id {A} i (l : list A) : mapi_from (fun _ x => x) i l = l.
Proof.
  revert i. induction l as [|x l IH]; intros i; simpl; [reflexivity | now rewrite IH].
Qed.

Lemma mapi_from_mapi_from {A B C} (f : nat -> B -> C) (g : nat -> A -> B) i l :
  mapi_from f i (mapi_from g i l) = mapi_from (fun j x => f j (g j x)) i l.
Proof.
  revert i. induction l as [|x l IH]; intros i; simpl; [reflexivity | now rewrite IH].
Qed.

Lemma map_mapi_from {A B C} (f : B -> C) (g : nat -> A -> B) i l :
  map f (mapi_from g i l) = mapi_from (fun j x => f (g j x)) i l.
Proof.
  revert i. induction l as [|x l IH]; intros i; simpl; [reflexivity | now rewrite IH].
Qed.

Lemma mapi_from_map {A B C} (f : nat -> B -> C) (g : A -> B) i l :
  mapi_from f i (map g l) = mapi_from (fun j x => f j (g x)) i l.
Proof.
  revert i. induction l as [|x l IH]; intros i; simpl; [reflexivity | now rewrite IH].
Qed.

Lemma length_mapi_from {A B} (f : nat -> A -> B) i l :
  length (mapi_from f i l) = length l.
Proof.
  revert i. induction l as [|x l IH]; intros i; simpl; [reflexivity | now rewrite IH].
Qed.

(** [a[y, :, :] *= k] touches row [y] and no other. *)
Lemma scale_row_mapi y k a i :
  scale_row y k a
  = mapi_from (fun j row => if (j =? i + y)%nat then scale_pixels k row else row) i a.
Proof.
  revert y i. induction a as [|row a IH]; intros y i; [now destruct y|].
  destruct y as [|y]; simpl.
  - rewrite Nat.add_0_r, Nat.eqb_refl. f_equal.
    rewrite <- (mapi_from_id (S i) a) at 1. apply mapi_from_ext.
    intros j x Hj. destruct (Nat.eqb_spec j i); [lia | reflexivity].
  - destruct (Nat.eqb_spec i (i + S y)); [lia|]. f_equal.
    rewrite (IH y (S i)). apply mapi_from_ext. intros j x _.
    now replace (S i + y)%nat with (i + S y)%nat by lia.
Qed.

(** The loop [for y in range(top)] scales each of the first [top] rows
    once, by the factor of that row. *)
Lemma scale_rows_loop (kf : nat -> Q) top a :
  fold_left (fun a y => scale_row y (kf y) a) (seq 0 top) a
  = mapi_from (fun j row => if (j <? top)%nat then scale_pixels (kf j) row else row) 0 a.
Proof.
  induction top as [|n IH].
  - simpl. symmetry. apply mapi_from_id.
  - rewrite seq_S, fold_left_app. cbn [fold_left Nat.add].
    rewrite IH, (scale_row_mapi n (kf n) _ 0), mapi_from_mapi_from.
    apply mapi_from_ext. intros j row _. cbn [Nat.add].
    destruct (Nat.eqb_spec j n) as [->|Hn].
    + rewrite Nat.ltb_irrefl.
      now replace (n <? S n)%nat with true by (symmetry; apply Nat.ltb_lt; lia).
    + destruct (Nat.ltb_spec j n), (Nat.ltb_spec j (S n)); try lia; reflexivity.
Qed.

(** The array program and the pixel-by-pixel function agree. *)
Lemma reduce_glare_pointwise_eq (img : rgb_image) :
  reduce_glare img = reduce_glare_pointwise img.
Proof.
  unfold reduce_glare, reduce_glare_pointwise, np_array_float32.
  set (F := map_rgb (fun v => Float.f32 (inject_Z v))).
  replace (map (map (fun px => Float.gtb (mean3 px) 220)) (map (map F) img))
    with (map (map (fun p => Float.gtb (mean3 (F p)) 220)) img)
    by (rewrite map_map; apply map_ext; intros row; now rewrite map_map).
  cbn [seq fold_left].
  rewrite !where_scaled_pointwise.
  rewrite scale_rows_loop, length_map, mapi_from_map, map_mapi_from.
  apply mapi_from_ext. intros y row _. unfold glare_pixel. fold F.
  destruct (y <? top_portion (length img))%nat.
  - unfold scale_pixels. rewrite !map_map. apply map_ext. intros p.
    destruct (F p) as [[r g] b] eqn:E.
    destruct (Float.gtb (mean3 (r, g, b)) 220); reflexivity.
  - rewrite !map_map. apply map_ext. intros p.
    destruct (F p) as [[r g] b] eqn:E.
    destruct (Float.gtb (mean3 (r, g, b)) 220); reflexivity.
Qed.

End GlareStructure.

Section GlareBounds.

Import Float.
Local Open Scope Q_scope.

Lemma f32_u8 v : u8 v -> f32 (inject_Z v) == inject_Z v.
Proof.
  intros [H0 H255]. apply round_int.
  split; [exact H0|]. change (2 ^ 24)%Z with 16777216%Z. lia.
Qed.

(** Multiplying a float32 value below an 8-bit integer by a factor in
    [0, 1] keeps it non-negative and below that integer. *)
Lemma scale_down v x k :
  u8 v -> 0 <= x -> x <= inject_Z v -> 0 <= k -> k <= 1 ->
  0 <= f32 (x * k) /\ f32 (x * k) <= inject_Z v.
Proof.
  intros Hv Hx0 Hxv Hk0 Hk1.
  assert (H0 : 0 <= x * k) by (apply Qmult_le_0_compat; assumption).
  assert (H1 : x * k <= inject_Z v).
  { eapply Qle_trans; [|exact Hxv].
    setoid_replace x with (x * 1) at 2 by ring.
    rewrite (Qmult_comm x k), (Qmult_comm x 1).
    now apply Qmult_le_compat_r. }
  split; [now apply round_nonneg|].
  rewrite <- (f32_u8 v Hv). apply round_mono; [lia | exact H0 | exact H1].
Qed.

(** The factor of a row is a float64 value in [0, 1]. *)
Lemma darken_factor_range y top :
  (y <= top)%nat -> (1 <= top)%nat ->
  0 <= darken_factor y top /\ darken_factor y top <= 1.
Proof.
  intros Hy Htop. unfold darken_factor. fold c15 c85.
  set (Yf := f64 (inject_Z (Z.of_nat y))).
  set (Tf := f64 (inject_Z (Z.of_nat top))).
  assert (HY0 : 0 <= Yf).
  { apply round_nonneg. change 0 with (inject_Z 0). rewrite <- Zle_Qle. lia. }
  assert (HYT : Yf <= Tf).
  { apply round_mono; [lia | |].
    - change 0 with (inject_Z 0). rewrite <- Zle_Qle. lia.
    - rewrite <- Zle_Qle. lia. }
  assert (HT1 : 1 <= Tf).
  { assert (E : f64 1 == 1) by reflexivity. rewrite <- E.
    apply round_mono; [lia | lra |].
    change 1 with (inject_Z 1). rewrite <- Zle_Qle. lia. }
  assert (Hc15 : 0 < c15) by reflexivity.
  set (a := f64 (c15 * Yf)).
  assert (Ha0 : 0 <= a) by (apply round_nonneg; nra).
  assert (Ha : a <= c15 * Yf * (1 + eps53)).
  { destruct (Qlt_le_dec 0 Yf) as [Hpos|Hz].
    - apply round_upper. nra.
    - unfold a, f64. rewrite round_zero by nra.
      assert (0 < eps53) by apply pow2_pos.
      apply Qmult_le_0_compat; [apply Qmult_le_0_compat|]; lra. }
  set (q := a / Tf).
  assert (Hq0 : 0 <= q).
  { apply Qle_shift_div_l; [lra|]. lra. }
  assert (Hq : q <= c15 * (1 + eps53)).
  { apply Qle_shift_div_r; [lra|].
    assert (He : 0 < eps53) by apply pow2_pos.
    eapply Qle_trans; [exact Ha|].
    setoid_replace (c15 * Yf * (1 + eps53)) with (c15 * (1 + eps53) * Yf) by ring.
    rewrite !(Qmult_comm (c15 * (1 + eps53))).
    apply Qmult_le_compat_r; [exact HYT|].
    apply Qmult_le_0_compat; lra. }
  set (b := f64 q).
  assert (Hb0 : 0 <= b) by now apply round_nonneg.
  assert (Hb : b <= 1 - c85).
  { assert (E : f64 (c15 * (1 + eps53)) <= 1 - c85) by (vm_compute; discriminate).
    eapply Qle_trans; [|exact E]. apply round_mono; [lia | exact Hq0 | exact Hq]. }
  assert (Hc85 : 0 < c85) by reflexivity.
  split.
  - apply round_nonneg. lra.
  - assert (E : f64 1 == 1) by reflexivity. rewrite <- E.
    apply round_mono; [lia | lra | lra].
Qed.

Lemma glare_factor_range :
  0 <= f32 glare_reduction /\ f32 glare_reduction <= 1.
Proof. split; vm_compute; discriminate. Qed.

Lemma to_uint8_range x v :
  u8 v -> 0 <= x -> x <= inject_Z v ->
  u8 (to_uint8 x) /\ (to_uint8 x <= v)%Z.
Proof.
  intros [Hv0 Hv255] Hx0 Hxv. unfold to_uint8, clip, u8.
  assert (Hv : inject_Z v <= 255).
  { change 255 with (inject_Z 255). now rewrite <- Zle_Qle. }
  destruct (Qle_bool x 0) eqn:E0.
  - change (Qfloor 0) with 0%Z. lia.
  - destruct (Qle_bool 255 x) eqn:E255.
    + apply Qle_bool_iff in E255. change (Qfloor 255) with 255%Z.
      assert (inject_Z 255 <= inject_Z v) by (change (inject_Z 255) with 255; lra).
      rewrite <- Zle_Qle in *. lia.
    + pose proof (Qfloor_le x) as F.
      assert (F0 : (Qfloor 0 <= Qfloor x)%Z) by now apply Qfloor_resp_le.
      change (Qfloor 0) with 0%Z in F0.
      assert (Fv : inject_Z (Qfloor x) <= inject_Z v) by lra.
      rewrite <- Zle_Qle in Fv. lia.
Qed.

(** One channel through the three stages of the filter. *)
Lemma glare_channel_range (glare band : bool) k v :
  u8 v -> 0 <= k -> k <= 1 ->
  let x0 := f32 (inject_Z v) in
  let x1 := if glare then f32 (x0 * f32 glare_reduction) else x0 in
  let x2 := if band then f32 (x1 * f32 k) else x1 in
  u8 (to_uint8 x2) /\ (to_uint8 x2 <= v)%Z.
Proof.
  intros Hv Hk0 Hk1 x0 x1 x2.
  destruct glare_factor_range as [G0 G1].
  assert (H0 : 0 <= x0 /\ x0 <= inject_Z v).
  { unfold x0. rewrite (f32_u8 v Hv). destruct Hv as [Hv0 _].
    split; [|apply Qle_refl]. change 0 with (inject_Z 0). now rewrite <- Zle_Qle. }
  assert (H1 : 0 <= x1 /\ x1 <= inject_Z v).
  { unfold x1. destruct glare; [|exact H0].
    apply scale_down; tauto. }
  assert (Hk32 : 0 <= f32 k /\ f32 k <= 1).
  { split; [now apply round_nonneg|].
    assert (E : f32 1 == 1) by reflexivity. rewrite <- E.
    apply round_mono; [lia | exact Hk0 | exact Hk1]. }
  assert (H2 : 0 <= x2 /\ x2 <= inject_Z v).
  { unfold x2. destruct band; [|exact H1].
    apply scale_down; tauto. }
  apply to_uint8_range; tauto.
Qed.

Lemma glare_pixel_no_brighter h y p :
  valid_pixel p -> no_brighter p (glare_pixel h y p).
Proof.
  intros Hp c. unfold glare_pixel.
  set (glare := gtb _ 220). set (band := (y <? top_portion h)%nat).
  assert (Hk : 0 <= (if band then darken_factor y (top_portion h) else 0)
               /\ (if band then darken_factor y (top_portion h) else 0) <= 1).
  { unfold band. destruct (Nat.ltb_spec y (top_portion h)) as [Hlt|_].
    - apply darken_factor_range; lia.
    - split; lra. }
  destruct Hk as [Hk0 Hk1].
  pose proof (fun v Hv => glare_channel_range glare band _ v Hv Hk0 Hk1) as R.
  cbv zeta in R.
  assert (Rb : forall v, u8 v ->
            u8 (to_uint8 (if band
                          then f32 ((if glare then f32 (f32 (inject_Z v) * f32 glare_reduction)
                                     else f32 (inject_Z v))
                                    * f32 (darken_factor y (top_portion h)))
                          else if glare then f32 (f32 (inject_Z v) * f32 glare_reduction)
                               else f32 (inject_Z v)))
            /\ (to_uint8 (if band
                          then f32 ((if glare then f32 (f32 (inject_Z v) * f32 glare_reduction)
                                     else f32 (inject_Z v))
                                    * f32 (darken_factor y (top_portion h)))
                          else if glare then f32 (f32 (inject_Z v) * f32 glare_reduction)
                               else f32 (inject_Z v)) <= v)%Z).
  { intros v Hv. specialize (R v Hv). destruct band; exact R. }
  destruct p as [[r g] b].
  pose proof (Hp 0%nat) as Hr. pose proof (Hp 1%nat) as Hg. pose proof (Hp 2%nat) as Hb.
  cbn [chan] in Hr, Hg, Hb. cbn [map_rgb chan].
  destruct c as [|[|c]]; cbn [chan]; apply Rb; assumption.
Qed.

(** No channel of any pixel grows, every channel stays in [0, 255], and
    the image keeps its rows and the length of each row. *)
Lemma reduce_glare_no_brighter img :
  valid_image img -> Forall2 (Forall2 no_brighter) img (reduce_glare img).
Proof.
  intros Hv. rewrite reduce_glare_pointwise_eq. unfold reduce_glare_pointwise.
  generalize (length img) as h. generalize 0%nat as i.
  induction Hv as [|row img Hrow _ IH]; intros i h; cbn [mapi_from].
  - constructor.
  - constructor; [|apply IH].
    induction Hrow as [|p row Hp _ IHrow]; cbn [map]; constructor.
    + now apply glare_pixel_no_brighter.
    + exact IHrow.
Qed.

Lemma inject_Z_nonneg n : (0 <= n)%Z -> 0 <= inject_Z n.
Proof. intros H. change 0 with (inject_Z 0). now rewrite <- Zle_Qle. Qed.

Lemma f32_sum a b n m :
  (0 <= n)%Z -> (0 <= m)%Z -> (n + m < 16777216)%Z ->
  a == inject_Z n -> b == inject_Z m ->
  f32 (a + b) == inject_Z (n + m).
Proof.
  intros Hn Hm Hlt Ha Hb.
  assert (E : a + b == inject_Z (n + m)) by (rewrite inject_Z_plus, Ha, Hb; reflexivity).
  assert (H0 : 0 <= a + b).
  { pose proof (inject_Z_nonneg n Hn). pose proof (inject_Z_nonneg m Hm). lra. }
  unfold f32. rewrite (round_compat 24 ltac:(lia) _ _ H0 E).
  apply round_int. change (2 ^ 24)%Z with 16777216%Z. lia.
Qed.

(** The float32 mean of an 8-bit pixel exceeds 220 exactly when the sum of
    its three channels exceeds 660. *)
Lemma glare_mask_sum r g b :
  u8 r -> u8 g -> u8 b ->
  gtb (mean3 (map_rgb (fun v => f32 (inject_Z v)) (r, g, b))) 220
  = (660 <? r + g + b)%Z.
Proof.
  intros Hr Hg Hb. cbn [map_rgb mean3].
  pose proof (f32_u8 r Hr) as Er. pose proof (f32_u8 g Hg) as Eg.
  pose proof (f32_u8 b Hb) as Eb. unfold u8 in *.
  assert (E1 : f32 (f32 (inject_Z r) + f32 (inject_Z g)) == inject_Z (r + g))
    by (apply f32_sum; (lia || assumption)).
  assert (E2 : f32 (f32 (f32 (inject_Z r) + f32 (inject_Z g)) + f32 (inject_Z b))
               == inject_Z (r + g + b))
    by (apply f32_sum; (lia || assumption)).
  set (S2 := f32 (f32 (f32 (inject_Z r) + f32 (inject_Z g)) + f32 (inject_Z b))) in *.
  assert (H0 : 0 <= S2) by (rewrite E2; apply inject_Z_nonneg; lia).
  unfold gtb. destruct (Z.ltb_spec 660 (r + g + b)) as [Hgt|Hle].
  - apply negb_true_iff. apply not_true_is_false. intros H.
    apply Qle_bool_iff in H.
    assert (L : f32 (661 # 3) <= f32 (S2 / 3)).
    { apply round_mono; [lia | discriminate |].
      apply Qle_shift_div_l; [reflexivity|]. rewrite E2.
      setoid_replace ((661 # 3) * 3) with (inject_Z 661) by reflexivity.
      rewrite <- Zle_Qle. lia. }
    assert (G : 220 < f32 (661 # 3)) by reflexivity. lra.
  - apply negb_false_iff. apply Qle_bool_iff.
    assert (E : f32 220 == 220) by reflexivity. rewrite <- E.
    apply round_mono; [lia | |].
    + apply Qle_shift_div_l; [reflexivity|]. lra.
    + apply Qle_shift_div_r; [reflexivity|]. rewrite E2.
      setoid_replace (220 * 3) with (inject_Z 660) by reflexivity.
      rewrite <- Zle_Qle. lia.
Qed.

Lemma Qfloor_unique x n :
  inject_Z n <= x -> x < inject_Z (n + 1) -> Qfloor x = n.
Proof.
  intros H1 H2. pose proof (Qfloor_le x) as F1. pose proof (Qlt_floor x) as F2.
  assert (A : inject_Z (Qfloor x) < inject_Z (n + 1)) by lra.
  assert (B : inject_Z n < inject_Z (Qfloor x + 1)) by lra.
  rewrite <- Zlt_Qlt in A, B. lia.
Qed.

(** [int(height * 0.4)] is two fifths of the height, rounded down. *)
Lemma top_portion_two_fifths h :
  (Z.of_nat h <= 2 ^ 50)%Z -> top_portion h = Z.to_nat (2 * Z.of_nat h / 5).
Proof.
  intros Hh. unfold top_portion. f_equal.
  set (n := Z.of_nat h) in *. assert (Hn0 : (0 <= n)%Z) by (unfold n; lia).
  change (2 ^ 50)%Z with 1125899906842624%Z in Hh.
  assert (En : f64 (inject_Z n) == inject_Z n).
  { apply round_int. change (2 ^ 53)%Z with 9007199254740992%Z. lia. }
  set (c := f64 (4 # 10)).
  assert (Hc1 : 4 # 10 <= c) by (vm_compute; discriminate).
  assert (Hc2 : c * (1 + pow2 (- 53)) <= (4 # 10) + (1 # 10000000000000000))
    by (vm_compute; discriminate).
  assert (HN : (0 <= n)%Z) by exact Hn0.
  pose proof (inject_Z_nonneg n Hn0) as Hq0.
  set (N := (2 * n / 5)%Z).
  assert (HNlo : (5 * N <= 2 * n)%Z) by (unfold N; apply Z.mul_div_le; lia).
  assert (HNhi : (2 * n < 5 * (N + 1))%Z).
  { unfold N. pose proof (Z.mod_pos_bound (2 * n) 5 ltac:(lia)).
    pose proof (Z.div_mod (2 * n) 5 ltac:(lia)). lia. }
  assert (QNlo : 5 * inject_Z N <= 2 * inject_Z n).
  { change 5 with (inject_Z 5). change 2 with (inject_Z 2).
    rewrite <- !inject_Z_mult, <- Zle_Qle. exact HNlo. }
  assert (QNhi : 2 * inject_Z n + 1 <= 5 * inject_Z (N + 1)).
  { change 5 with (inject_Z 5). change 2 with (inject_Z 2). change 1 with (inject_Z 1) at 1.
    rewrite <- !inject_Z_mult, <- inject_Z_plus, <- Zle_Qle. lia. }
  assert (Qn : inject_Z n <= 1125899906842624).
  { change 1125899906842624 with (inject_Z 1125899906842624). now rewrite <- Zle_Qle. }
  assert (HN0 : (0 <= N)%Z) by (unfold N; apply Z.div_pos; lia).
  assert (EN : f64 (inject_Z N) == inject_Z N).
  { apply round_int. change (2 ^ 53)%Z with 9007199254740992%Z. lia. }
  set (P := f64 (inject_Z n) * c).
  assert (HP0 : 0 <= P) by (unfold P; rewrite En; apply Qmult_le_0_compat; lra).
  assert (HPlo : inject_Z N <= P).
  { unfold P. rewrite En.
    assert (inject_Z n * (4 # 10) <= inject_Z n * c).
    { rewrite !(Qmult_comm (inject_Z n)). now apply Qmult_le_compat_r. }
    lra. }
  apply Qfloor_unique.
  - rewrite <- EN. apply round_mono; [lia | apply inject_Z_nonneg; exact HN0 | exact HPlo].
  - destruct (Qlt_le_dec 0 P) as [Hpos|Hz].
    + eapply Qle_lt_trans; [apply round_upper; exact Hpos|].
      unfold P. rewrite En.
      setoid_replace (inject_Z n * c * (1 + pow2 (-53)))
        with (inject_Z n * (c * (1 + pow2 (-53)))) by ring.
      assert (inject_Z n * (c * (1 + pow2 (- 53)))
              <= inject_Z n * ((4 # 10) + (1 # 10000000000000000))).
      { rewrite !(Qmult_comm (inject_Z n)). now apply Qmult_le_compat_r. }
      lra.
    + unfold f64. rewrite round_zero by lra.
      change 0 with (inject_Z 0). rewrite <- Zlt_Qlt. lia.
Qed.

End GlareBounds.

(** C4. [reduce_glare] is the pixel-by-pixel function [glare_pixel]: the
    glare mask is taken from the original pixel (for an 8-bit pixel the
    float32 mean exceeds 220 exactly when the channels sum to more than
    660); the three channels of a glare pixel are multiplied by 0.7 and
    the other pixels are left as they are; every pixel of a row above
    [top_portion] (two fifths of the height, rounded down) is then
    multiplied by the factor of its row, glare or not, and the rows below
    are not; each channel is finally clipped to [0, 255] and truncated. *)
Theorem reduce_glare_per_pixel (img : rgb_image) :
  reduce_glare img = reduce_glare_pointwise img
  /\ (forall r g b, u8 r -> u8 g -> u8 b ->
        Float.gtb (mean3 (map_rgb (fun v => Float.f32 (inject_Z v)) (r, g, b))) 220
        = (660 <? r + g + b))
  /\ (forall h, Z.of_nat h <= 2 ^ 50 ->
        top_portion h = Z.to_nat (2 * Z.of_nat h / 5))
  /\ reduce_glare glare_sample
     = [[(148, 148, 148); (85, 85, 85)];
        [(161, 161, 161); (92, 92, 92)];
        [(175, 175, 175); (100, 100, 100)];
        [(175, 175, 175); (100, 100, 100)];
        [(175, 175, 175); (154, 154, 154)]].
Proof.
  split; [apply reduce_glare_pointwise_eq|].
  split; [exact glare_mask_sum|].
  split; [exact top_portion_two_fifths|].
  vm_compute. reflexivity.
Qed.

Lemma reduce_glare_per_pixel_witness :
  Float.gtb (mean3 (map_rgb (fun v => Float.f32 (inject_Z v)) (221, 220, 220))) 220
  = true
  /\ top_portion 1080 = 432%nat.
Proof.
  destruct (reduce_glare_per_pixel []) as (_ & Hmask & Htop & _). split.
  - apply (Hmask 221 220 220); unfold u8; lia.
  - apply (Htop 1080%nat). discriminate.
Defined.

Lemma map_length_mapi_from {A B} (f : nat -> A -> B) i (l : list (list A)) :
  map (@length B) (mapi_from (fun y row => map (f y) row) i l) = map (@length A) l.
Proof.
  revert i. induction l as [|row l IH]; intros i; cbn [mapi_from map]; [reflexivity|].
  now rewrite length_map, IH.
Qed.

(** C5. On an 8-bit RGB image, [reduce_glare] raises no channel of any
    pixel, leaves every channel in [0, 255], and returns an image with
    the same number of rows and the same number of pixels in each row. *)
Theorem reduce_glare_never_brightens (img : rgb_image) :
  valid_image img ->
  Forall2 (Forall2 no_brighter) img (reduce_glare img)
  /\ length (reduce_glare img) = length img
  /\ map (@length (rgb Z)) (reduce_glare img) = map (@length (rgb Z)) img.
Proof.
  intros Hv. split; [now apply reduce_glare_no_brighter|].
  rewrite reduce_glare_pointwise_eq. unfold reduce_glare_pointwise. split.
  - apply length_mapi_from.
  - apply map_length_mapi_from.
Qed.

Lemma valid_u8_pixel r g b : u8 r -> u8 g -> u8 b -> valid_pixel (r, g, b).
Proof. intros Hr Hg Hb [|[|c]]; assumption. Qed.

Lemma reduce_glare_never_brightens_witness :
  Forall2 (Forall2 no_brighter) glare_sample (reduce_glare glare_sample).
Proof.
  apply (reduce_glare_never_brightens glare_sample).
  repeat (apply Forall_cons || apply Forall_nil);
    apply valid_u8_pixel; unfold u8; lia.
Defined.

(* ------------------------------------------------------------------ *)
(** ** The image pipeline *)

Section Pipeline.

Lemma process_image_steps L raw flip deg region enhance reduce :
  process_image L raw flip deg region enhance reduce
  = transform L raw flip deg region enhance reduce.
Proof.
  unfold process_image, transform, bind.
  destruct (image_open L raw) as [img|e]; [|reflexivity].
  unfold step_normalize, step_mirror, step_rotate, step_crop, step_glare,
    step_enhance, step_encode.
  destruct (String.eqb (mode L img) "RGBA"), (String.eqb (mode L img) "RGB"),
    flip, (deg =? 0), region; reflexivity.
Qed.


(* ---- crop ---- *)

Lemma length_zrange a b : length (zrange a b) = Z.to_nat (b - a).
Proof. unfold zrange. now rewrite length_map, length_seq. Qed.

Lemma nth_zrange a b i d :
  (i < Z.to_nat (b - a))%nat -> nth i (zrange a b) d = a + Z.of_nat i.
Proof.
  intros Hi. unfold zrange.
  rewrite (nth_indep _ d (a + Z.of_nat 0)) by (now rewrite length_map, length_seq).
  rewrite (map_nth (fun i => a + Z.of_nat i)), seq_nth by exact Hi.
  reflexivity.
Qed.

Lemma crop_ordered x0 y0 x1 y1 img :
  x0 <= x1 -> y0 <= y1 ->
  crop (x0, y0, x1, y1) img = Return (crop_pixels (x0, y0, x1, y1) img).
Proof.
  intros Hx Hy. unfold crop, crop_pixels.
  replace (x1 <? x0) with false by (symmetry; apply Z.ltb_ge; lia).
  replace (y1 <? y0) with false by (symmetry; apply Z.ltb_ge; lia).
  reflexivity.
Qed.

Lemma crop_pixels_size x0 y0 x1 y1 img :
  y0 <= y1 -> x0 <= x1 ->
  height (crop_pixels (x0, y0, x1, y1) img) = y1 - y0
  /\ Forall (fun row => Z.of_nat (length row) = x1 - x0)
            (crop_pixels (x0, y0, x1, y1) img).
Proof.
  intros Hy Hx. unfold height, crop_pixels. split.
  - rewrite length_map, length_zrange. lia.
  - apply Forall_forall. intros row Hrow. apply in_map_iff in Hrow.
    destruct Hrow as (y & <- & _). rewrite length_map, length_zrange. lia.
Qed.

Lemma crop_pixels_at x0 y0 x1 y1 img x y :
  x0 <= x < x1 -> y0 <= y < y1 ->
  pixel_at (crop_pixels (x0, y0, x1, y1) img) (x - x0) (y - y0) = pixel_at img x y.
Proof.
  intros Hx Hy. unfold crop_pixels. unfold pixel_at at 1.
  replace (0 <=? x - x0) with true by (symmetry; apply Z.leb_le; lia).
  replace (0 <=? y - y0) with true by (symmetry; apply Z.leb_le; lia).
  cbn [andb].
  set (f := fun y => map (fun x => pixel_at img x y) (zrange x0 x1)).
  rewrite (nth_indep _ [] (f 0)) by (rewrite length_map, length_zrange; lia).
  rewrite (map_nth f), nth_zrange by lia. unfold f.
  rewrite (nth_indep _ (0, 0, 0) (pixel_at img 0 (y0 + Z.of_nat (Z.to_nat (y - y0)))))
    by (rewrite length_map, length_zrange; lia).
  rewrite (map_nth (fun x => pixel_at img x _)), nth_zrange by lia.
  f_equal; lia.
Qed.

End Pipeline.

(** C3. [process_image] hands the box to the library's [crop] unchecked:
    whenever the box is ordered, wherever it lies, the result is an image
    of the size of the box whose pixels outside the source are black, and
    that image is what gets encoded. *)
Theorem process_image_crop_unchecked L raw d x0 y0 x1 y1 :
  image_open L raw = Return d -> x0 <= x1 -> y0 <= y1 ->
  let src := step_normalize L d in
  let out := crop_pixels (x0, y0, x1, y1) src in
  height out = y1 - y0
  /\ Forall (fun row => Z.of_nat (length row) = x1 - x0) out
  /\ (forall x y, x0 <= x < x1 -> y0 <= y < y1 ->
        pixel_at out (x - x0) (y - y0) = pixel_at src x y)
  /\ (forall x y,
        x < 0 \/ y < 0 \/ height src <= y
        \/ Z.of_nat (length (nth (Z.to_nat y) src [])) <= x ->
        pixel_at src x y = (0, 0, 0))
  /\ process_image L raw false 0 (Some (x0, y0, x1, y1)) false false
     = save_jpeg L 95 out.
Proof.
  intros Hopen Hx Hy src out.
  destruct (crop_pixels_size x0 y0 x1 y1 src Hy Hx) as [Hh Hw].
  split; [exact Hh|]. split; [exact Hw|]. split; [|split].
  - intros x y. apply crop_pixels_at.
  - intros x y H. unfold pixel_at.
    destruct (Z.leb_spec 0 x), (Z.leb_spec 0 y); cbn [andb]; try reflexivity.
    destruct H as [H|[H|[H|H]]]; try lia.
    + rewrite (nth_overflow src) by (unfold height in H; lia).
      now destruct (Z.to_nat x).
    + apply nth_overflow. lia.
  - rewrite process_image_steps. unfold transform. rewrite Hopen. cbn [bind].
    unfold step_mirror, step_rotate, step_crop. cbn [Z.eqb].
    fold src. rewrite (crop_ordered x0 y0 x1 y1 src Hx Hy). cbn [bind].
    reflexivity.
Qed.

Lemma process_image_crop_unchecked_witness :
  process_image (test_library two_by_two) [] false 0 (Some (0, 0, 3, 3)) false false
  = save_jpeg (test_library two_by_two) 95
      [[(200, 200, 200); (200, 200, 200); (0, 0, 0)];
       [(200, 200, 200); (200, 200, 200); (0, 0, 0)];
       [(0, 0, 0); (0, 0, 0); (0, 0, 0)]].
Proof.
  apply (process_image_crop_unchecked (test_library two_by_two) [] two_by_two
           0 0 3 3 eq_refl); discriminate.
Defined.



(* ------------------------------------------------------------------ *)
(** ** The log and the notification *)

Section Run.

(** One run: the imaging library in use, what the run reads from outside
    and the state it starts from; the camera has answered with a frame. *)
Variables (L : Imaging) (e : env) (w : world) (data : bytes).
Hypothesis camera_answers : camera e = Some data.
Hypothesis frame_not_empty : data <> [].

Lemma analyze_oil_gauge_inv result pct path :
  analyze_oil_gauge L e data = Return (Some (result, pct, path)) ->
  parse_percentage result = Return pct
  /\ path = (images_dir e ++ "/processed_" ++ stamp_processed e ++ ".jpg")%string.
Proof.
  unfold analyze_oil_gauge. destruct (api_key e); cbn [negb]; [|discriminate].
  destruct (process_image _ _ _ _ _ _ _) as [processed|x]; cbn [bind]; [|discriminate].
  destruct (claude e processed) as [r|]; [|discriminate].
  destruct (parse_percentage r) as [pc|x] eqn:E; [|discriminate].
  intros H. inversion H; subst. split; [exact E | reflexivity].
Qed.

Lemma main_parsed result p path :
  analyze_oil_gauge L e data = Return (Some (result, Some p, path)) ->
  main L e w
  = (Return tt,
     snd (send_alert_email e p path (p <=? ALERT_THRESHOLD)
            (log_reading e p result (snapshot_path e) w))).
Proof.
  intros Han. unfold main. rewrite camera_answers.
  destruct (analyze_oil_gauge_inv _ _ _ Han) as [Hparse _].
  destruct data as [|b rest]; [now contradiction frame_not_empty|].
  cbn [is_empty]. rewrite Han.
  destruct (String.eqb_spec result "") as [->|_].
  - vm_compute in Hparse. discriminate Hparse.
  - fold (snapshot_path e).
    now destruct (send_alert_email e p path (p <=? ALERT_THRESHOLD) _).
Qed.

Lemma main_unparsed result path :
  analyze_oil_gauge L e data = Return (Some (result, None, path)) ->
  main L e w = (Return tt, w).
Proof.
  intros Han. unfold main. rewrite camera_answers.
  destruct (is_empty data); [reflexivity|]. rewrite Han.
  now destruct (String.eqb result "").
Qed.

End Run.

Example run_18_main :
  main (test_library two_by_two) run_18 (World None [])
  = (Return tt,
     World (Some [ [CStr "Timestamp"; CStr "Percentage"; CStr "Snapshot";
                    CStr "Raw Result"];
                   [CStr "2025-01-01 12:00:09"; CInt 18;
                    CStr "images/oil_snapshot_20250101_120000.jpg";
                    CStr "Percentage: 18%"] ])
           [Email true 18 "images/processed_20250101_120003.jpg"]).
Proof. reflexivity. Qed.

Lemma replace_newlines_map s :
  str (replace_newlines s)
  = map (fun c => if Ascii.eqb c "010" then " "%char else c) (str s).
Proof.
  unfold str. induction s as [|c s IH]; cbn [replace_newlines list_ascii_of_string map];
    [reflexivity | now rewrite IH].
Qed.

Lemma replace_newlines_clean s : ~ In "010"%char (str (replace_newlines s)).
Proof.
  rewrite replace_newlines_map. intros H. apply in_map_iff in H.
  destruct H as (c & Hc & _).
  destruct (Ascii.eqb_spec c "010") as [E|Hne]; [discriminate Hc | congruence].
Qed.

(** C6. In a run that reaches the parse stage: when a percentage was
    parsed, [main] appends one row to the log and then submits one status
    mail, the warning variant exactly when the percentage is at most 25;
    the mail is in the outbox unless the server refuses it. When no
    percentage was parsed, [main] returns normally and changes nothing. *)
Theorem main_logs_then_notifies L e w data result pct path :
  camera e = Some data -> data <> [] ->
  analyze_oil_gauge L e data = Return (Some (result, pct, path)) ->
  match pct with
  | Some p =>
      exists row,
        main L e w
        = (Return tt,
           World (Some (match log_file w with
                        | None => [header; row]
                        | Some old => old ++ [row]
                        end))
                 (if smtp_ok e
                  then outbox w ++ [Email (p <=? 25) p path]
                  else outbox w))
        /\ nth_error row 1 = Some (CInt p)
  | None => main L e w = (Return tt, w)
  end.
Proof.
  intros Hcam Hne Han. destruct pct as [p|].
  - exists [CStr (stamp_log e); CInt p; CStr (snapshot_path e);
            CStr (replace_newlines result)].
    rewrite (main_parsed L e w data Hcam Hne result p path Han).
    unfold send_alert_email, log_reading. cbn [log_file outbox].
    split; [|reflexivity].
    destruct (smtp_ok e); cbn [snd log_file outbox]; reflexivity.
  - exact (main_unparsed L e w data Hcam result path Han).
Qed.

Lemma main_logs_then_notifies_witness :
  exists row,
    main (test_library two_by_two) run_18 (World None [])
    = (Return tt,
       World (Some [header; row])
             [Email true 18 "images/processed_20250101_120003.jpg"])
    /\ nth_error row 1 = Some (CInt 18).
Proof.
  apply (main_logs_then_notifies (test_library two_by_two) run_18 (World None [])
           [x00] "Percentage: 18%"%string (Some 18)
           "images/processed_20250101_120003.jpg"%string eq_refl).
  - discriminate.
  - reflexivity.
Defined.

(** C8, the claim as stated fails: the third field of the row is the path
    of the raw snapshot, not that of the processed image, and the fourth
    header is ["Raw Result"]. *)
Lemma log_row_names_raw_snapshot :
  analyze_oil_gauge (test_library two_by_two) run_18 [x00]
  = Return (Some ("Percentage: 18%"%string, Some 18,
                  "images/processed_20250101_120003.jpg"%string))
  /\ log_file (snd (main (test_library two_by_two) run_18 (World None [])))
     = Some [ [CStr "Timestamp"; CStr "Percentage"; CStr "Snapshot";
               CStr "Raw Result"];
              [CStr "2025-01-01 12:00:09"; CInt 18;
               CStr "images/oil_snapshot_20250101_120000.jpg";
               CStr "Percentage: 18%"] ]
  /\ CStr "images/oil_snapshot_20250101_120000.jpg"
     <> CStr "images/processed_20250101_120003.jpg"
  /\ CStr "Raw Result" <> CStr "RawResult".
Proof.
  split; [reflexivity|]. split; [reflexivity|]. split; discriminate.
Qed.

(** C8, amended. The log starts with the header [Timestamp], [Percentage],
    [Snapshot], [Raw Result] when the file does not exist yet, and a
    reading with a parsed percentage appends exactly one row: the
    timestamp, the percentage, the path of the raw snapshot, and the
    response text with every newline replaced by one blank. *)
Theorem main_log_row L e w data result p path :
  camera e = Some data -> data <> [] ->
  analyze_oil_gauge L e data = Return (Some (result, Some p, path)) ->
  let row := [CStr (stamp_log e); CInt p; CStr (snapshot_path e);
              CStr (replace_newlines result)] in
  header = [CStr "Timestamp"; CStr "Percentage"; CStr "Snapshot"; CStr "Raw Result"]
  /\ log_file (snd (main L e w))
     = Some (match log_file w with
             | None => [header; row]
             | Some old => old ++ [row]
             end)
  /\ snapshot_path e
     = (images_dir e ++ "/oil_snapshot_" ++ stamp_snapshot e ++ ".jpg")%string
  /\ str (replace_newlines result)
     = map (fun c => if Ascii.eqb c "010" then " "%char else c) (str result)
  /\ ~ In "010"%char (str (replace_newlines result)).
Proof.
  intros Hcam Hne Han row. split; [reflexivity|]. split; [|split; [reflexivity|split]].
  - rewrite (main_parsed L e w data Hcam Hne result p path Han).
    unfold send_alert_email, log_reading.
    destruct (smtp_ok e); cbn [snd log_file]; reflexivity.
  - apply replace_newlines_map.
  - apply replace_newlines_clean.
Qed.

Lemma main_log_row_witness :
  log_file (snd (main (test_library two_by_two) run_18
                   (World (Some [header]) [])))
  = Some [header;
          [CStr "2025-01-01 12:00:09"; CInt 18;
           CStr "images/oil_snapshot_20250101_120000.jpg";
           CStr "Percentage: 18%"]].
Proof.
  apply (main_log_row (test_library two_by_two) run_18 (World (Some [header]) [])
           [x00] "Percentage: 18%"%string 18
           "images/processed_20250101_120003.jpg"%string eq_refl).
  - discriminate.
  - reflexivity.
Defined.

(* ------------------------------------------------------------------ *)
(** ** More on the percentage extractor *)

(* ---- str(n) ---- *)






(* ---- the labeled pattern with any blanks after the label ---- *)




(* ---- texts no pattern matches ---- *)

Lemma search_needs_percent p t :
  In p patterns -> ~ In "%"%char t -> Re.search p t = None.
Proof.
  intros Hp Hno. destruct (Re.search p t) as [m|] eqn:E; [|reflexivity].
  exfalso. apply search_from_leftmost in E.
  destruct E as (i & n & _ & _ & Hat & _).
  destruct (match_here_some p _ _ _ Hp Hat) as (_ & body & rest & Hs & _).
  apply Hno. rewrite <- (firstn_skipn i t), Hs.
  apply in_or_app. right. apply in_or_app. right. now left.
Qed.

Lemma search_labeled_needs_colon t :
  ~ In ":"%char t -> Re.search pattern_labeled t = None.
Proof.
  intros Hno. destruct (Re.search pattern_labeled t) as [m|] eqn:E; [|reflexivity].
  exfalso. apply search_from_leftmost in E.
  destruct E as (i & n & _ & _ & Hat & _).
  rewrite match_here_labeled in Hat. unfold scan_labeled in Hat.
  destruct (strip_prefix (str "Percentage:") (skipn i t)) as [r|] eqn:Es;
    [|discriminate].
  apply strip_prefix_app in Es.
  apply Hno. rewrite <- (firstn_skipn i t), Es.
  apply in_or_app. right. apply in_or_app. left.
  cbn. tauto.
Qed.

(** X2. A text without a percent sign has no percentage, and neither has
    a text with neither a colon nor a dash (a number before [%] is not
    enough): [parse_percentage] returns [None]. *)
Theorem parse_percentage_no_match (s : string) :
  ~ In "%"%char (str s)
  \/ (~ In ":"%char (str s) /\ ~ In "-"%char (str s)) ->
  parse_percentage s = Return None.
Proof.
  intros H.
  pose proof (first_pattern_answer patterns (str s) (incl_refl _)) as A.
  assert (N : first_match patterns (str s) = None).
  { apply first_match_none. intros p Hp. destruct H as [H|[Hc Hd]].
    - now apply search_needs_percent.
    - destruct Hp as [<-|[<-|[]]].
      + now apply search_labeled_needs_colon.
      + now apply no_dash_no_bare. }
  rewrite N in A. exact A.
Qed.

Lemma parse_percentage_no_match_witness :
  parse_percentage "The float sits near 42% of the tube" = Return None.
Proof.
  apply (parse_percentage_no_match "The float sits near 42% of the tube").
  right. split; intros H;
    repeat (destruct H as [H|H]; [discriminate H|]); exact H.
Defined.

(* ---- the number returned is written in the text ---- *)

Lemma scan_numbers_last opt lead s n cs :
  scan_numbers opt lead s = Some (n, cs) ->
  exists before g rest,
    s = before ++ g ++ "%"%char :: rest /\ digits g /\ chosen_group cs = Some g.
Proof.
  unfold scan_numbers. intros H.
  pose proof (take_drop_while Re.is_digit s) as Es.
  destruct (take_while Re.is_digit s) as [|d ds] eqn:Ed1; [discriminate|].
  destruct (drop_while Re.is_digit s) as [|c r] eqn:Er; [discriminate|].
  apply take_while_digits in Ed1.
  destruct (Ascii.eqb_spec "-" c) as [<-|Hc].
  - pose proof (take_drop_while Re.is_digit r) as Er'.
    destruct (take_while Re.is_digit r) as [|e es] eqn:Ed2; [discriminate|].
    destruct (drop_while Re.is_digit r) as [|c2 r2] eqn:Er2; [discriminate|].
    apply take_while_digits in Ed2.
    destruct (Ascii.eqb_spec "%" c2) as [<-|]; [|discriminate].
    inversion H; subst n cs; clear H.
    exists ((d :: ds) ++ ["-"%char]), (e :: es), r2. split; [|split].
    + rewrite <- Es, <- Er', <- !app_assoc. reflexivity.
    + exact Ed2.
    + reflexivity.
  - destruct opt; [|discriminate]. cbn [andb] in H.
    destruct (Ascii.eqb_spec "%" c) as [<-|]; [|discriminate].
    inversion H; subst n cs; clear H.
    exists [], (d :: ds), r. split; [now rewrite <- Es | split; [exact Ed1 | reflexivity]].
Qed.

Lemma match_here_last p s n cs :
  In p patterns -> Re.match_here p s = Some (n, cs) ->
  exists before g rest,
    s = before ++ g ++ "%"%char :: rest /\ digits g /\ chosen_group cs = Some g.
Proof.
  intros [<-|[<-|[]]] H.
  - rewrite match_here_labeled in H. unfold scan_labeled in H.
    destruct (strip_prefix (str "Percentage:") s) as [r|] eqn:E; [|discriminate].
    apply strip_prefix_app in E.
    apply scan_numbers_last in H. destruct H as (b & g & rest & Hs & Hg & Hc).
    exists (str "Percentage:" ++ take_while Re.is_space r ++ b), g, rest.
    split; [|split; assumption].
    rewrite E. rewrite <- (take_drop_while Re.is_space r) at 1. rewrite Hs.
    now rewrite <- !app_assoc.
  - rewrite match_here_bare in H. now apply scan_numbers_last in H.
Qed.

(** X3. A percentage that [parse_percentage] returns is written in the
    text: it is the value of a non-empty run of decimal digits that stands
    immediately before a percent sign. *)
Theorem parse_percentage_reads_the_text (s : string) (n : Z) :
  parse_percentage s = Return (Some n) ->
  exists before g rest,
    str s = before ++ g ++ "%"%char :: rest /\ digits g /\ n = decimal g.
Proof.
  unfold parse_percentage, patterns. intros H.
  assert (Step : forall p ps, In p patterns ->
            forall m, Re.search p (str s) = Some m ->
            first_pattern (p :: ps) (str s) = Return (Some n) ->
            exists before g rest,
              str s = before ++ g ++ "%"%char :: rest /\ digits g /\ n = decimal g).
  { intros p ps Hp m Hm Hres.
    rewrite (first_pattern_found p ps _ m Hp Hm) in Hres.
    unfold Re.search in Hm.
    destruct (search_from_leftmost _ _ _ _ Hm) as (i & k & _ & _ & Hat & _).
    destruct (match_here_last p _ _ _ Hp Hat) as (b & g & rest & Hs & Hg & Hc).
    exists (firstn i (str s) ++ b), g, rest. split; [|split; [exact Hg|]].
    - rewrite <- app_assoc, <- Hs. symmetry. apply firstn_skipn.
    - unfold chosen_group, Re.group in *.
      destruct (Re.lookup 2 (Re.m_caps m)) as [g2|].
      + inversion Hc; subst g2. now inversion Hres.
      + rewrite Hc in Hres. now inversion Hres. }
  destruct (Re.search pattern_labeled (str s)) as [m|] eqn:E1.
  - apply (Step pattern_labeled [pattern_bare] (or_introl eq_refl) m E1 H).
  - cbn [first_pattern] in H. rewrite E1 in H.
    destruct (Re.search pattern_bare (str s)) as [m|] eqn:E2.
    + apply (Step pattern_bare [] (or_intror (or_introl eq_refl)) m E2).
      cbn [first_pattern]. rewrite E2. exact H.
    + discriminate H.
Qed.

Lemma parse_percentage_reads_the_text_witness :
  exists before g rest,
    str "Level: 40-45% or so" = before ++ g ++ "%"%char :: rest
    /\ digits g /\ 45 = decimal g.
Proof.
  apply (parse_percentage_reads_the_text "Level: 40-45% or so" 45). reflexivity.
Defined.

(* ------------------------------------------------------------------ *)
(** ** The glare filter in whole numbers *)

Lemma in_zrange_u8 v : u8 v -> In v (zrange 0 256).
Proof.
  intros [H0 H1]. unfold zrange. apply in_map_iff.
  exists (Z.to_nat v). split; [lia|]. apply in_seq. cbn. lia.
Qed.

(** A property of a channel value checked on each of its 256 values. *)
Lemma by_enumeration (check : Z -> bool) :
  forallb check (zrange 0 256) = true -> forall v, u8 v -> check v = true.
Proof.
  intros H v Hv. rewrite forallb_forall in H. apply H. now apply in_zrange_u8.
Qed.

Lemma channel_kept v :
  u8 v -> to_uint8 (Float.f32 (inject_Z v)) = v.
Proof.
  intros Hv. apply Z.eqb_eq.
  apply (by_enumeration (fun v => to_uint8 (Float.f32 (inject_Z v)) =? v));
    [vm_compute; reflexivity | exact Hv].
Qed.

Lemma channel_reduced v :
  u8 v ->
  to_uint8 (Float.f32 (Float.f32 (inject_Z v) * Float.f32 glare_reduction))
  = 7 * v / 10.
Proof.
  intros Hv. apply Z.eqb_eq.
  apply (by_enumeration
           (fun v => to_uint8 (Float.f32 (Float.f32 (inject_Z v)
                                          * Float.f32 glare_reduction))
                     =? 7 * v / 10));
    [vm_compute; reflexivity | exact Hv].
Qed.

Lemma channel_top v :
  u8 v ->
  to_uint8 (Float.f32 (Float.f32 (inject_Z v) * Float.f32 c85)) = 17 * v / 20.
Proof.
  intros Hv. apply Z.eqb_eq.
  apply (by_enumeration
           (fun v => to_uint8 (Float.f32 (Float.f32 (inject_Z v) * Float.f32 c85))
                     =? 17 * v / 20));
    [vm_compute; reflexivity | exact Hv].
Qed.

Lemma channel_reduced_top v :
  u8 v ->
  to_uint8 (Float.f32 (Float.f32 (Float.f32 (inject_Z v)
                                  * Float.f32 glare_reduction)
                       * Float.f32 c85))
  = 119 * v / 200.
Proof.
  intros Hv. apply Z.eqb_eq.
  apply (by_enumeration
           (fun v => to_uint8 (Float.f32 (Float.f32 (Float.f32 (inject_Z v)
                                                     * Float.f32 glare_reduction)
                                          * Float.f32 c85))
                     =? 119 * v / 200));
    [vm_compute; reflexivity | exact Hv].
Qed.

Lemma valid_pixel_channels r g b : valid_pixel (r, g, b) -> u8 r /\ u8 g /\ u8 b.
Proof.
  intros H. split; [exact (H 0%nat) | split; [exact (H 1%nat) | exact (H 2%nat)]].
Qed.

Lemma glare_pixel_below_band h y p :
  valid_pixel p -> (top_portion h <= y)%nat ->
  glare_pixel h y p = below_band_pixel p.
Proof.
  intros Hp Hy. destruct p as [[r g] b].
  destruct (valid_pixel_channels r g b Hp) as (Hr & Hg & Hb).
  unfold glare_pixel, below_band_pixel, is_glare.
  rewrite (glare_mask_sum r g b Hr Hg Hb).
  replace (y <? top_portion h)%nat with false
    by (symmetry; apply Nat.ltb_ge; exact Hy).
  cbn [map_rgb]. destruct (660 <? r + g + b).
  - unfold scale_floor. cbn [map_rgb].
    now rewrite !channel_reduced.
  - now rewrite !channel_kept.
Qed.

Lemma glare_pixel_top_row h p :
  valid_pixel p -> (1 <= top_portion h)%nat ->
  glare_pixel h 0 p = top_row_pixel p.
Proof.
  intros Hp Hh. destruct p as [[r g] b].
  destruct (valid_pixel_channels r g b Hp) as (Hr & Hg & Hb).
  unfold glare_pixel, top_row_pixel, is_glare, scale_floor.
  rewrite (glare_mask_sum r g b Hr Hg Hb).
  destruct (top_portion h) as [|k]; [lia|].
  change (0 <? S k)%nat with true.
  change (darken_factor 0 (S k)) with c85.
  cbn [map_rgb]. destruct (660 <? r + g + b).
  - now rewrite !channel_reduced_top.
  - now rewrite !channel_top.
Qed.

Lemma nth_error_mapi_from {A B} (f : nat -> A -> B) i l y :
  nth_error (mapi_from f i l) y = option_map (f (i + y)%nat) (nth_error l y).
Proof.
  revert i y. induction l as [|x l IH]; intros i [|y]; cbn [mapi_from nth_error option_map];
    try reflexivity.
  - now rewrite Nat.add_0_r.
  - rewrite IH. now replace (S i + y)%nat with (i + S y)%nat by lia.
Qed.

Lemma valid_row_of img y row :
  valid_image img -> nth_error img y = Some row -> Forall valid_pixel row.
Proof.
  intros Hv Hy. unfold valid_image in Hv. rewrite Forall_forall in Hv.
  apply Hv. eapply nth_error_In. exact Hy.
Qed.

Lemma reduce_glare_row img y row :
  nth_error img y = Some row ->
  nth_error (reduce_glare img) y = Some (map (glare_pixel (length img) y) row).
Proof.
  intros Hy. rewrite reduce_glare_pointwise_eq. unfold reduce_glare_pointwise.
  now rewrite nth_error_mapi_from, Hy.
Qed.

Lemma reduce_glare_row_below img y row :
  valid_image img -> nth_error img y = Some row ->
  (top_portion (length img) <= y)%nat ->
  nth_error (reduce_glare img) y = Some (map below_band_pixel row).
Proof.
  intros Hv Hy Hband. rewrite (reduce_glare_row img y row Hy). f_equal.
  pose proof (valid_row_of img y row Hv Hy) as Hrow. rewrite Forall_forall in Hrow.
  apply map_ext_in. intros p Hp. apply glare_pixel_below_band; auto.
Qed.

(** X4. Below the darkened band the float arithmetic of [reduce_glare]
    is whole-number arithmetic: in a row at or below [top_portion] of an
    8-bit image, a pixel whose channels sum to at most 660 comes back
    unchanged, and every channel [v] of a brighter pixel comes back as
    [floor (7 v / 10)]. *)
Theorem reduce_glare_below_the_band img y row :
  valid_image img -> nth_error img y = Some row ->
  (top_portion (length img) <= y)%nat ->
  nth_error (reduce_glare img) y = Some (map below_band_pixel row).
Proof.
  intros Hv Hy Hband. rewrite (reduce_glare_row img y row Hy). f_equal.
  pose proof (valid_row_of img y row Hv Hy) as Hrow. rewrite Forall_forall in Hrow.
  apply map_ext_in. intros p Hp. apply glare_pixel_below_band; auto.
Qed.

Ltac valid_sample :=
  repeat (apply Forall_cons || apply Forall_nil);
  apply valid_u8_pixel; unfold u8; lia.

Lemma reduce_glare_below_the_band_witness :
  nth_error (reduce_glare glare_sample) 4
  = Some [(175, 175, 175); (154, 154, 154)].
Proof.
  apply (reduce_glare_below_the_band glare_sample 4
           [(250, 250, 250); (221, 220, 220)]).
  - valid_sample.
  - reflexivity.
  - vm_compute. lia.
Defined.

(** X5. In the top row of an 8-bit image of at least three rows, where
    the gradient is at its strongest, [reduce_glare] turns every channel
    [v] into [floor (17 v / 20)], and into [floor (119 v / 200)] in a pixel
    whose channels sum to more than 660. *)
Theorem reduce_glare_top_row img row rest :
  valid_image img -> img = row :: rest ->
  (3 <= length img)%nat -> Z.of_nat (length img) <= 2 ^ 50 ->
  nth_error (reduce_glare img) 0 = Some (map top_row_pixel row).
Proof.
  intros Hv -> H3 Hbig.
  rewrite (reduce_glare_row (row :: rest) 0 row eq_refl). f_equal.
  pose proof (valid_row_of (row :: rest) 0 row Hv eq_refl) as Hrow.
  rewrite Forall_forall in Hrow.
  assert (Htop : (1 <= top_portion (length (row :: rest)))%nat).
  { rewrite (top_portion_two_fifths _ Hbig).
    assert (1 <= 2 * Z.of_nat (length (row :: rest)) / 5); [|lia].
    apply Z.div_le_lower_bound; lia. }
  apply map_ext_in. intros p Hp. apply glare_pixel_top_row; auto.
Qed.

Lemma reduce_glare_top_row_witness :
  nth_error (reduce_glare glare_sample) 0
  = Some [(148, 148, 148); (85, 85, 85)].
Proof.
  apply (reduce_glare_top_row glare_sample [(250, 250, 250); (100, 100, 100)]
           (tl glare_sample)).
  - valid_sample.
  - reflexivity.
  - cbn. lia.
  - discriminate.
Defined.

Lemma below_band_pixel_valid p : valid_pixel p -> valid_pixel (below_band_pixel p).
Proof.
  intros Hp. destruct p as [[r g] b].
  destruct (valid_pixel_channels r g b Hp) as (Hr & Hg & Hb).
  unfold below_band_pixel. destruct (is_glare (r, g, b)); [|exact Hp].
  unfold scale_floor, u8 in *. cbn [map_rgb].
  apply valid_u8_pixel; unfold u8;
    (split; [apply Z.div_pos; lia | apply Z.div_le_upper_bound; lia]).
Qed.

Lemma below_band_pixel_no_glare q : is_glare q = false -> below_band_pixel q = q.
Proof. intros E. unfold below_band_pixel. now rewrite E. Qed.

Lemma below_band_pixel_settled p :
  valid_pixel p -> below_band_pixel (below_band_pixel p) = below_band_pixel p.
Proof.
  intros Hp. apply below_band_pixel_no_glare. destruct p as [[r g] b].
  destruct (valid_pixel_channels r g b Hp) as (Hr & Hg & Hb).
  unfold below_band_pixel. destruct (is_glare (r, g, b)) eqn:E; [|exact E].
  unfold is_glare, scale_floor. cbn [map_rgb].
  apply Z.ltb_ge. unfold u8 in *.
  assert (7 * r / 10 < 179) by (apply Z.div_lt_upper_bound; lia).
  assert (7 * g / 10 < 179) by (apply Z.div_lt_upper_bound; lia).
  assert (7 * b / 10 < 179) by (apply Z.div_lt_upper_bound; lia).
  lia.
Qed.

Lemma reduce_glare_length img : length (reduce_glare img) = length img.
Proof.
  rewrite reduce_glare_pointwise_eq. apply length_mapi_from.
Qed.

(** X6. Below the band a second pass of [reduce_glare] changes nothing:
    a glare pixel reduced once is no glare pixel any more. *)
Theorem reduce_glare_settles_below_the_band img :
  valid_image img ->
  skipn (top_portion (length img)) (reduce_glare (reduce_glare img))
  = skipn (top_portion (length img)) (reduce_glare img).
Proof.
  intros Hv. apply nth_error_ext. intros i. rewrite !nth_error_skipn.
  set (y := (top_portion (length img) + i)%nat).
  destruct (nth_error img y) as [row|] eqn:Hy.
  - assert (Hband : (top_portion (length img) <= y)%nat) by (unfold y; lia).
    pose proof (reduce_glare_row_below img y row Hv Hy Hband) as H1.
    assert (Hv1 : valid_image (reduce_glare img)).
    { unfold valid_image. rewrite Forall_forall. intros r1 Hr1.
      apply In_nth_error in Hr1. destruct Hr1 as [n Hn].
      destruct (nth_error img n) as [r0|] eqn:H0.
      - rewrite (reduce_glare_row img n r0 H0) in Hn. injection Hn as <-.
        pose proof (valid_row_of img n r0 Hv H0) as Hr0.
        rewrite Forall_forall in *. intros q Hq. apply in_map_iff in Hq.
        destruct Hq as (p & <- & Hp). intros c.
        exact (proj1 (glare_pixel_no_brighter (length img) n p (Hr0 p Hp) c)).
      - apply nth_error_None in H0. rewrite <- reduce_glare_length in H0.
        apply nth_error_None in H0. congruence. }
    rewrite (reduce_glare_row_below (reduce_glare img) y _ Hv1 H1)
      by (rewrite reduce_glare_length; exact Hband).
    rewrite H1. f_equal. rewrite map_map. apply map_ext_in. intros p Hp.
    apply below_band_pixel_settled.
    pose proof (valid_row_of img y row Hv Hy) as Hrow.
    rewrite Forall_forall in Hrow. now apply Hrow.
  - pose proof Hy as Hn. apply nth_error_None in Hn.
    assert (E1 : nth_error (reduce_glare img) y = None)
      by (apply nth_error_None; now rewrite reduce_glare_length).
    assert (E2 : nth_error (reduce_glare (reduce_glare img)) y = None)
      by (apply nth_error_None; now rewrite !reduce_glare_length).
    now rewrite E1, E2.
Qed.

Lemma reduce_glare_settles_below_the_band_witness :
  skipn 2 (reduce_glare (reduce_glare glare_sample))
  = skipn 2 (reduce_glare glare_sample).
Proof.
  apply (reduce_glare_settles_below_the_band glare_sample).
  repeat (apply Forall_cons || apply Forall_nil);
    apply valid_u8_pixel; unfold u8; lia.
Defined.

(* ------------------------------------------------------------------ *)
(** ** The image sent to the model, and what a run leaves behind *)










(** X9. [main] only ever appends. A run either leaves the log and the
    outbox as they were, or returns normally having appended exactly one
    row to the log (after the header when it creates the file) and at most
    one mail, of the percentage of that row and with the processed image
    attached, the warning variant exactly at or below the threshold. No
    mail is sent without a row, and nothing is removed or rewritten. *)
Theorem main_appends_only L e w :
  snd (main L e w) = w
  \/ exists row p,
       main L e w
       = (Return tt,
          World (Some (log_before w ++ [row]))
                (if smtp_ok e
                 then outbox w ++ [Email (p <=? ALERT_THRESHOLD) p (processed_path e)]
                 else outbox w))
       /\ nth_error row 1 = Some (CInt p).
Proof.
  unfold main. destruct (camera e) as [data|] eqn:Hcam; [|now left].
  destruct data as [|b rest]; [now left|]. cbn [is_empty].
  destruct (analyze_oil_gauge L e (b :: rest)) as [[[[result pct] path]|]|x]
    eqn:Han; [| now left | now left].
  destruct (String.eqb result ""); [now left|].
  destruct pct as [p|]; [|now left].
  right.
  assert (Hne : b :: rest <> []) by discriminate.
  destruct (analyze_oil_gauge_inv L e (b :: rest) result (Some p) path Han)
    as [_ ->].
  exists [CStr (stamp_log e); CInt p;
          CStr (images_dir e ++ "/oil_snapshot_" ++ stamp_snapshot e ++ ".jpg")%string;
          CStr (replace_newlines result)], p.
  split; [|reflexivity].
  unfold send_alert_email, log_reading, log_before, processed_path.
  cbn [log_file outbox].
  destruct (smtp_ok e), (log_file w); reflexivity.
Qed.



(* ------------------------------------------------------------------ *)
(** ** The log over several readings *)

Lemma log_reading_row e p r s w :
  log_reading e p r s w
  = World (Some (log_before w ++ [log_row e (p, r, s)])) (outbox w).
Proof.
  unfold log_reading, log_before, log_row. now destruct (log_file w).
Qed.

Lemma log_readings_existing e readings rows mails :
  log_readings e readings (World (Some rows) mails)
  = World (Some (rows ++ map (log_row e) readings)) mails.
Proof.
  unfold log_readings. revert rows.
  induction readings as [|[[p raw] s] rs IH]; intros rows; cbn [fold_left map].
  - now rewrite app_nil_r.
  - rewrite log_reading_row. unfold log_before. cbn [log_file outbox].
    rewrite IH, <- app_assoc. reflexivity.
Qed.

(** X11. Readings logged one after the other end up in the file in that
    order, one row each, after what the file held; the header is written
    once, by the first of them, and only when the file did not exist (an
    existing empty file never gets one). The outbox is not touched. *)
Theorem log_readings_rows e readings w :
  readings <> [] ->
  log_readings e readings w
  = World (Some (log_before w ++ map (log_row e) readings)) (outbox w).
Proof.
  intros Hne. destruct readings as [|[[p raw] s] rs]; [contradiction|].
  change (log_readings e ((p, raw, s) :: rs) w)
    with (log_readings e rs (log_reading e p raw s w)).
  rewrite log_reading_row, log_readings_existing, <- app_assoc. reflexivity.
Qed.

Lemma log_readings_rows_witness :
  log_readings run_18 [(18, "a"%string, "s1"%string); (17, "b"%string, "s2"%string)]
    (World (Some []) [])
  = World (Some [log_row run_18 (18, "a"%string, "s1"%string);
                 log_row run_18 (17, "b"%string, "s2"%string)]) [].
Proof.
  apply (log_readings_rows run_18
           [(18, "a"%string, "s1"%string); (17, "b"%string, "s2"%string)]
           (World (Some []) [])).
  discriminate.
Defined.

(* ------------------------------------------------------------------ *)
(** ** The camera *)

Lemma is_set_fmt v : is_set v = true -> v = Some (fmt v).
Proof. destruct v as [[|c s]|]; try discriminate. reflexivity. Qed.

(** X12. [get_camera_snapshot] returns a frame exactly when the three
    settings are set and non-empty and the request is answered with status
    200; the frame is the body of that answer. *)
Theorem get_camera_snapshot_frame c http_get sent body :
  fst (get_camera_snapshot c http_get sent) = Some body <->
  is_set (UNIFI_HOST c) = true /\ is_set (UNIFI_API_KEY c) = true
  /\ is_set (CAMERA_ID c) = true
  /\ exists response,
       http_get (snapshot_request c) = Return response
       /\ status_code response = 200 /\ content response = body.
Proof.
  unfold get_camera_snapshot.
  destruct (is_set (UNIFI_HOST c)), (is_set (UNIFI_API_KEY c)),
    (is_set (CAMERA_ID c)); cbn [andb negb fst];
    try (split; [discriminate | intros (? & ? & ? & _); discriminate]).
  destruct (http_get (snapshot_request c)) as [response|x].
  - destruct (Z.eqb_spec (status_code response) 200) as [E|E]; cbn [negb fst].
    + split.
      * intros H. inversion H. repeat split. now exists response.
      * intros (_ & _ & _ & r & Hr & _ & Hb). inversion Hr; subst r. now rewrite Hb.
    + split; [discriminate|].
      intros (_ & _ & _ & r & Hr & Hs & _). inversion Hr; subst r. contradiction.
  - cbn [fst]. split; [discriminate|].
    intros (_ & _ & _ & r & Hr & _). discriminate Hr.
Qed.

Lemma get_camera_snapshot_frame_witness :
  fst (get_camera_snapshot garage_camera (answers 200 [x00]) []) = Some [x00].
Proof.
  apply (proj2 (get_camera_snapshot_frame garage_camera (answers 200 [x00]) [] [x00])).
  repeat split. exists (Response 200 [x00]). repeat split.
Defined.

(** X13. [get_camera_snapshot] sends nothing while a setting is missing
    or empty; otherwise it sends exactly one request, whatever the answer:
    to the snapshot URL of that host and camera, with the key in the
    [X-API-KEY] header. *)
Theorem get_camera_snapshot_requests c http_get sent :
  let sent' := snd (get_camera_snapshot c http_get sent) in
  (is_set (UNIFI_HOST c) && is_set (UNIFI_API_KEY c) && is_set (CAMERA_ID c) = false ->
   sent' = sent)
  /\ (is_set (UNIFI_HOST c) && is_set (UNIFI_API_KEY c) && is_set (CAMERA_ID c) = true ->
      exists host key camera,
        UNIFI_HOST c = Some host /\ UNIFI_API_KEY c = Some key
        /\ CAMERA_ID c = Some camera
        /\ sent' = sent ++ [Request ("https://" ++ host
                                     ++ "/proxy/protect/integration/v1/cameras/"
                                     ++ camera ++ "/snapshot")%string
                                    key "*/*"]).
Proof.
  cbv zeta. unfold get_camera_snapshot. split; intros H; rewrite H; cbn [negb snd].
  - reflexivity.
  - apply andb_prop in H. destruct H as [H H3]. apply andb_prop in H.
    destruct H as [H1 H2].
    exists (fmt (UNIFI_HOST c)), (fmt (UNIFI_API_KEY c)), (fmt (CAMERA_ID c)).
    split; [now apply is_set_fmt|]. split; [now apply is_set_fmt|].
    split; [now apply is_set_fmt|].
    destruct (http_get (snapshot_request c)) as [response|x];
      [destruct (negb (status_code response =? 200))|]; reflexivity.
Qed.

Lemma get_camera_snapshot_requests_witness :
  snd (get_camera_snapshot (Unifi (Some "192.168.1.1"%string) None (Some "cam1"%string))
         (answers 200 [x00]) [])
  = [].
Proof.
  apply (proj1 (get_camera_snapshot_requests
                  (Unifi (Some "192.168.1.1"%string) None (Some "cam1"%string))
                  (answers 200 [x00]) [])).
  reflexivity.
Defined.

(** X14. When a setting is missing, the request fails, the camera
    answers with another status than 200, or the body is empty, a run of
    [main] returns normally and leaves the log and the outbox alone. *)
Theorem main_from_camera_idle c http_get L e w :
  (is_set (UNIFI_HOST c) && is_set (UNIFI_API_KEY c) && is_set (CAMERA_ID c) = false
   \/ (exists x, http_get (snapshot_request c) = Raise x)
   \/ (exists response,
         http_get (snapshot_request c) = Return response
         /\ (status_code response <> 200 \/ content response = []))) ->
  main_from_camera c http_get L e w = (Return tt, w).
Proof.
  unfold main_from_camera, get_camera_snapshot, main.
  intros [H|[[x H]|(response & H & Hr)]].
  - now rewrite H.
  - rewrite H.
    now destruct (negb (is_set (UNIFI_HOST c) && is_set (UNIFI_API_KEY c)
                        && is_set (CAMERA_ID c))).
  - rewrite H.
    destruct (negb (is_set (UNIFI_HOST c) && is_set (UNIFI_API_KEY c)
                    && is_set (CAMERA_ID c))); [reflexivity|].
    destruct (Z.eqb_spec (status_code response) 200) as [E|E]; cbn [negb fst];
      [|reflexivity].
    destruct Hr as [Hr|Hr]; [contradiction|].
    cbn [with_camera camera]. now rewrite Hr.
Qed.

Lemma main_from_camera_idle_witness :
  main_from_camera garage_camera (answers 503 [x00]) (test_library two_by_two)
    run_18 (World None [])
  = (Return tt, World None []).
Proof.
  apply (main_from_camera_idle garage_camera (answers 503 [x00])).
  right. right. exists (Response 503 [x00]). split; [reflexivity|].
  left. discriminate.
Defined.

(* ------------------------------------------------------------------ *)
(** ** The crop tool *)

Section CropTool.

Lemma in_zrange a b i : In i (zrange a b) -> a <= i < b.
Proof.
  unfold zrange. intros H. apply in_map_iff in H. destruct H as (n & <- & Hn).
  apply in_seq in Hn. lia.
Qed.

(** The elements of a list at the indices [a], ..., [b - 1]. *)
Lemma window {A} (l : list A) (d : A) a b :
  0 <= a <= b -> b <= Z.of_nat (length l) ->
  map (fun i => nth (Z.to_nat i) l d) (zrange a b)
  = firstn (Z.to_nat (b - a)) (skipn (Z.to_nat a) l).
Proof.
  intros Hab Hb. apply (nth_ext _ _ d d).
  - rewrite length_map, length_zrange, length_firstn, length_skipn. lia.
  - intros n Hn. rewrite length_map, length_zrange in Hn.
    rewrite (nth_indep _ d (nth (Z.to_nat 0) l d))
      by (rewrite length_map, length_zrange; exact Hn).
    rewrite (map_nth (fun i => nth (Z.to_nat i) l d)), nth_zrange by exact Hn.
    rewrite nth_firstn, nth_skipn.
    replace (n <? Z.to_nat (b - a))%nat with true
      by (symmetry; apply Nat.ltb_lt; exact Hn).
    f_equal. lia.
Qed.

Lemma rectangular_row img y :
  rectangular img -> 0 <= y < height img ->
  Z.of_nat (length (nth (Z.to_nat y) img [])) = width img.
Proof.
  intros Hr Hy. unfold rectangular in Hr. rewrite Forall_forall in Hr.
  apply Hr. apply nth_In. unfold height in Hy. lia.
Qed.

Lemma crop_pixels_slice img x0 y0 x1 y1 :
  rectangular img ->
  0 <= x0 <= x1 -> x1 <= width img -> 0 <= y0 <= y1 -> y1 <= height img ->
  crop_pixels (x0, y0, x1, y1) img = slice (x0, y0, x1, y1) img.
Proof.
  intros Hr Hx Hxw Hy Hyh. unfold crop_pixels, slice.
  rewrite <- (window img [] y0 y1 Hy Hyh), map_map.
  apply map_ext_in. intros y Hin. apply in_zrange in Hin.
  rewrite <- (window _ (0, 0, 0) x0 x1 Hx)
    by (rewrite rectangular_row by (assumption || lia); exact Hxw).
  apply map_ext_in. intros x Hinx. apply in_zrange in Hinx.
  unfold pixel_at.
  replace (0 <=? x) with true by (symmetry; apply Z.leb_le; lia).
  replace (0 <=? y) with true by (symmetry; apply Z.leb_le; lia).
  reflexivity.
Qed.

Lemma crop_box_accepted_iff img x0 y0 x1 y1 :
  crop_box_accepted img (x0, y0, x1, y1) = true
  <-> x0 < x1 /\ y0 < y1 /\ x1 <= width img /\ y1 <= height img.
Proof.
  unfold crop_box_accepted.
  rewrite andb_true_iff, !negb_true_iff, !orb_false_iff.
  rewrite !Z.geb_leb, !Z.gtb_ltb, !Z.leb_gt, !Z.ltb_ge. tauto.
Qed.

End CropTool.

(** X15. [simple_crop.py], given a box with non-negative left and upper
    edges on a rectangular image: it exits when the box is empty or leaves
    the image on the right or below, and otherwise saves exactly the
    pixels of the image inside the box; the library never has to pad and
    never raises. *)
Theorem simple_crop_slice img x0 y0 x1 y1 :
  rectangular img -> 0 <= x0 -> 0 <= y0 ->
  simple_crop img (Some (x0, y0, x1, y1))
  = if crop_box_accepted img (x0, y0, x1, y1)
    then Return (Some (slice (x0, y0, x1, y1) img))
    else Return None.
Proof.
  intros Hr Hx0 Hy0. unfold simple_crop.
  destruct (crop_box_accepted img (x0, y0, x1, y1)) eqn:E; [|reflexivity].
  apply crop_box_accepted_iff in E. destruct E as (Hx & Hy & Hw & Hh).
  rewrite crop_ordered by lia. cbn [bind].
  rewrite crop_pixels_slice by (assumption || lia). reflexivity.
Qed.

Lemma simple_crop_slice_witness :
  simple_crop [[(1, 1, 1); (2, 2, 2); (3, 3, 3)]; [(4, 4, 4); (5, 5, 5); (6, 6, 6)]]
    (Some (1, 0, 3, 1))
  = Return (Some [[(2, 2, 2); (3, 3, 3)]]).
Proof.
  apply (simple_crop_slice
           [[(1, 1, 1); (2, 2, 2); (3, 3, 3)]; [(4, 4, 4); (5, 5, 5); (6, 6, 6)]]
           1 0 3 1).
  - repeat constructor.
  - lia.
  - lia.
Defined.

(** X16. The default box of the crop tools is the full height and the
    quarter of the width (rounded down), centred within one pixel.
    [simple_crop.py] accepts it exactly when the image is at least four
    pixels wide and one pixel high, and then saves that slice. *)
Theorem simple_crop_default img :
  rectangular img ->
  let '(x0, y0, x1, y1) := default_crop_box (width img) (height img) in
  simple_crop img None
  = (if (4 <=? width img) && (1 <=? height img)
     then Return (Some (slice (x0, y0, x1, y1) img))
     else Return None)
  /\ x1 - x0 = width img / 4 /\ y0 = 0 /\ y1 = height img
  /\ 0 <= (width img - x1) - x0 <= 1.
Proof.
  intros Hr. unfold default_crop_box. cbv zeta.
  set (W := width img). set (H := height img).
  assert (HW : 0 <= W) by (unfold W, width; destruct img; lia).
  assert (HH : 0 <= H) by (unfold H, height; lia).
  set (q := W / 4). set (m := (W - q) / 2).
  assert (Hq : 0 <= q /\ 4 * q <= W /\ W < 4 * q + 4).
  { unfold q. pose proof (Z.div_mod W 4 ltac:(lia)).
    pose proof (Z.mod_pos_bound W 4 ltac:(lia)). lia. }
  assert (Hm : 2 * m <= W - q /\ W - q < 2 * m + 2).
  { unfold m. pose proof (Z.div_mod (W - q) 2 ltac:(lia)).
    pose proof (Z.mod_pos_bound (W - q) 2 ltac:(lia)). lia. }
  split; [|lia].
  unfold simple_crop. fold W H. unfold default_crop_box. cbv zeta. fold q m.
  destruct (crop_box_accepted img (m, 0, m + q, H)) eqn:E.
  - pose proof E as E'. apply crop_box_accepted_iff in E'. fold W H in E'.
    replace ((4 <=? W) && (1 <=? H)) with true
      by (symmetry; apply andb_true_iff; rewrite !Z.leb_le; lia).
    rewrite crop_ordered by lia. cbn [bind].
    rewrite crop_pixels_slice by (assumption || fold W H; lia). reflexivity.
  - replace ((4 <=? W) && (1 <=? H)) with false; [reflexivity|].
    symmetry. apply not_true_iff_false. intros T.
    apply andb_true_iff in T. rewrite !Z.leb_le in T.
    apply not_true_iff_false in E. apply E.
    apply crop_box_accepted_iff. fold W H. lia.
Qed.

Lemma simple_crop_default_witness :
  simple_crop [[(1, 1, 1); (2, 2, 2); (3, 3, 3); (4, 4, 4); (5, 5, 5)]] None
  = Return (Some [[(3, 3, 3)]]).
Proof.
  apply (simple_crop_default
           [[(1, 1, 1); (2, 2, 2); (3, 3, 3); (4, 4, 4); (5, 5, 5)]]).
  repeat constructor.
Defined.

(* ------------------------------------------------------------------ *)
(** ** The scripts that call [analyze_oil_gauge] with two targets *)



(* ------------------------------------------------------------------ *)
(** ** The gradient of the band *)

Section Gradient.

Import Float.
Local Open Scope Q_scope.

(** X18. The gradient of the band: the factor of the top row is exactly
    0.85, the factor never decreases from one row to the next below it,
    and it stays between 0.85 and 1, with all the float64 roundings of its
    computation. *)
Theorem darken_factor_gradient (y y' top : nat) :
  (1 <= top)%nat -> (y <= y')%nat -> (y' <= top)%nat ->
  darken_factor 0 top = c85
  /\ c85 <= darken_factor y top
  /\ darken_factor y top <= darken_factor y' top
  /\ darken_factor y' top <= 1.
Proof.
  intros Htop Hy Hy'. split; [|split; [|split]].
  - destruct top as [|k]; [lia | reflexivity].
  - unfold darken_factor. fold c15 c85.
    set (Yf := f64 (inject_Z (Z.of_nat y))).
    set (Tf := f64 (inject_Z (Z.of_nat top))).
    assert (HY0 : 0 <= Yf)
      by (apply round_nonneg; apply inject_Z_nonneg; lia).
    assert (HT1 : 1 <= Tf).
    { assert (E : f64 1 == 1) by reflexivity. rewrite <- E.
      apply round_mono; [lia | lra |].
      change 1 with (inject_Z 1). rewrite <- Zle_Qle. lia. }
    assert (Hc15 : 0 < c15) by reflexivity.
    assert (Ha0 : 0 <= f64 (c15 * Yf))
      by (apply round_nonneg; apply Qmult_le_0_compat; lra).
    assert (Hq0 : 0 <= f64 (c15 * Yf) / Tf)
      by (apply Qle_shift_div_l; lra).
    assert (Hb0 : 0 <= f64 (f64 (c15 * Yf) / Tf)) by now apply round_nonneg.
    assert (Hc85 : 0 < c85) by reflexivity.
    assert (E : f64 c85 == c85) by reflexivity.
    rewrite <- E at 1. apply round_mono; [lia | lra | lra].
  - unfold darken_factor. fold c15 c85.
    set (Yf := f64 (inject_Z (Z.of_nat y))).
    set (Yf' := f64 (inject_Z (Z.of_nat y'))).
    set (Tf := f64 (inject_Z (Z.of_nat top))).
    assert (HY0 : 0 <= Yf)
      by (apply round_nonneg; apply inject_Z_nonneg; lia).
    assert (HYY : Yf <= Yf').
    { apply round_mono; [lia | apply inject_Z_nonneg; lia |].
      rewrite <- Zle_Qle. lia. }
    assert (HT1 : 1 <= Tf).
    { assert (E : f64 1 == 1) by reflexivity. rewrite <- E.
      apply round_mono; [lia | lra |].
      change 1 with (inject_Z 1). rewrite <- Zle_Qle. lia. }
    assert (Hc15 : 0 < c15) by reflexivity.
    assert (Hp0 : 0 <= c15 * Yf) by (apply Qmult_le_0_compat; lra).
    assert (Hpp : c15 * Yf <= c15 * Yf').
    { rewrite !(Qmult_comm c15). apply Qmult_le_compat_r; lra. }
    assert (Ha0 : 0 <= f64 (c15 * Yf)) by now apply round_nonneg.
    assert (Haa : f64 (c15 * Yf) <= f64 (c15 * Yf'))
      by (apply round_mono; [lia | exact Hp0 | exact Hpp]).
    assert (Hq0 : 0 <= f64 (c15 * Yf) / Tf)
      by (apply Qle_shift_div_l; lra).
    assert (Hqq : f64 (c15 * Yf) / Tf <= f64 (c15 * Yf') / Tf).
    { unfold Qdiv. apply Qmult_le_compat_r; [exact Haa|].
      apply Qlt_le_weak, Qinv_lt_0_compat. lra. }
    assert (Hb0 : 0 <= f64 (f64 (c15 * Yf) / Tf)) by now apply round_nonneg.
    assert (Hbb : f64 (f64 (c15 * Yf) / Tf) <= f64 (f64 (c15 * Yf') / Tf))
      by (apply round_mono; [lia | exact Hq0 | exact Hqq]).
    assert (Hc85 : 0 < c85) by reflexivity.
    apply round_mono; [lia | lra | lra].
  - now apply darken_factor_range.
Qed.

Lemma darken_factor_gradient_witness :
  darken_factor 0 380 = c85
  /\ c85 <= darken_factor 100 380
  /\ darken_factor 100 380 <= darken_factor 379 380
  /\ darken_factor 379 380 <= 1.
Proof.
  apply (darken_factor_gradient 100 379 380); lia.
Defined.

End Gradient.
